(** * Text-to-speech helpers of [helpers/call_utils.py]

    A shallow embedding of the sentence splitter [tts_sentence_split], of
    the chunk packing and playback loop of [handle_play], of the SSML
    builder [_audio_from_text] and of the recognition helpers, together
    with the properties of these functions.

    Python strings are sequences of Unicode code points: a [str] is a list
    of code points, so that [len] is [length], slicing is [firstn] and
    concatenation is [++]. *)

From Stdlib Require Import String Ascii.
From Stdlib Require Import NArith Arith Bool Lia List.
Import ListNotations.

Local Open Scope list_scope.

(** ** Strings *)

Definition str := list N.

(** A literal of the source, written as a Rocq string (ASCII only). *)
Definition lit (s : string) : str :=
  map N_of_ascii (list_ascii_of_string s).

(** A literal of the source in which the double quotes are written as
    apostrophes; none of the literals written this way holds an apostrophe
    of its own. *)
Definition litq (s : string) : str :=
  map (fun c => if N.eqb c 39 then 34%N else c) (lit s).

Definition newline : N := 10.
Definition space : N := 32.
Definition dot : N := 46.

(** Truth value of a string: [if s:] and [if not s:]. *)
Definition truthy (s : str) : bool :=
  match s with
  | [] => false
  | _ :: _ => true
  end.

(** [str.isspace] on one code point, the table of CPython's
    [_PyUnicode_IsWhitespace]. *)
Definition isspace (c : N) : bool :=
  ((9 <=? c) && (c <=? 13) || (28 <=? c) && (c <=? 32)
   || (c =? 133) || (c =? 160) || (c =? 5760)
   || (8192 <=? c) && (c <=? 8202)
   || (c =? 8232) || (c =? 8233) || (c =? 8239) || (c =? 8287)
   || (c =? 12288))%N.

Fixpoint lstrip (s : str) : str :=
  match s with
  | [] => []
  | c :: r => if isspace c then lstrip r else s
  end.

Definition rstrip (s : str) : str := rev (lstrip (rev s)).

(** [s.strip()]: whitespace is removed at both ends. *)
Definition strip (s : str) : str := rstrip (lstrip s).

(** [needle in hay] for strings. *)
Fixpoint startswith (hay needle : str) : bool :=
  match needle, hay with
  | [], _ => true
  | _ :: _, [] => false
  | n :: needle', h :: hay' => N.eqb n h && startswith hay' needle'
  end.

Fixpoint contains (needle hay : str) : bool :=
  startswith hay needle ||
  match hay with
  | [] => false
  | _ :: hay' => contains needle hay'
  end.

(** The text without its whitespace characters: two texts with the same
    image differ in whitespace only. *)
Definition without_spaces (s : str) : str :=
  filter (fun c => negb (isspace c)) s.

(** ** The sentence splitter *)

(** The class [[!?;]] of [_SENTENCE_PUNCTUATION_R]. *)
Definition is_mark (c : N) : bool :=
  ((c =? 33) || (c =? 63) || (c =? 59))%N.

(** [re.split(_SENTENCE_PUNCTUATION_R, text)] for the pattern
    [(\. |\.$|[!?;])].  The scan goes from left to right; at a position
    the alternatives are tried in order: a dot followed by a space, a dot
    at the end of the text ([$] also matches just before a newline that
    ends the text), one of [!?;].  The pattern has one capturing group, so
    the result alternates the text between the matches with the matched
    delimiters.  [cur] is the text read since the last match. *)
Fixpoint re_split_from (cur : str) (s : str) : list str :=
  match s with
  | [] => [cur]
  | c :: rest =>
      if N.eqb c dot then
        match rest with
        | [] => cur :: [dot] :: re_split_from [] rest
        | c2 :: rest2 =>
            if N.eqb c2 space then
              cur :: [dot; space] :: re_split_from [] rest2
            else if N.eqb c2 newline && negb (truthy rest2) then
              cur :: [dot] :: re_split_from [] rest
            else re_split_from (cur ++ [c]) rest
        end
      else if is_mark c then cur :: [c] :: re_split_from [] rest
      else re_split_from (cur ++ [c]) rest
  end.

Definition re_split (text : str) : list str := re_split_from [] text.

(** The loop [for i, split in enumerate(splits)] of [tts_sentence_split];
    [todo] is what is left of [splits] from index [i] on, and the result
    lists the yielded values.  [splits[i + 1]] is read only where
    [i < len(splits) - 1], so it is always in range. *)
Fixpoint tts_iter (splits : list str) (include_last : bool)
    (i : nat) (todo : list str) : list str :=
  match todo with
  | [] => []
  | split :: todo' =>
      let next := tts_iter splits include_last (S i) todo' in
      if Nat.eqb (i mod 2) 1 then next
      else if negb (truthy split) then next
      else if Nat.eqb i (length splits - 1) then
        if include_last then split :: next else next
      else (split ++ nth (i + 1) splits []) :: next
  end.

Definition tts_sentence_split (text : str) (include_last : bool) : list str :=
  let splits := re_split text in
  tts_iter splits include_last 0 splits.

(** The yielded values, read off the alternation of texts and delimiters
    that [re.split] returns: a text is glued to the delimiter after it,
    the last text stands alone. *)
Fixpoint join_pairs (include_last : bool) (splits : list str) : list str :=
  match splits with
  | [] => []
  | [last] =>
      if negb (truthy last) then []
      else if include_last then [last] else []
  | split :: delimiter :: rest =>
      if negb (truthy split) then join_pairs include_last rest
      else (split ++ delimiter) :: join_pairs include_last rest
  end.

(** The texts of [splits] that a delimiter follows. *)
Fixpoint inner_segments (splits : list str) : list str :=
  match splits with
  | split :: _ :: rest => split :: inner_segments rest
  | _ => []
  end.

(** No match of the pattern comes right after another match or at the
    start of the text. *)
Definition no_empty_segment (text : str) : bool :=
  forallb truthy (inner_segments (re_split text)).

(** A text made of the marks [!], [?] and [;] only, but for a dot that
    may end it. *)
Fixpoint only_terminators (text : str) : bool :=
  match text with
  | [] => true
  | c :: rest =>
      if is_mark c then only_terminators rest
      else N.eqb c dot && negb (truthy rest)
  end.

(** What the pattern matches: a dot and a space, a dot, or one mark. *)
Definition is_delimiter (d : str) : bool :=
  match d with
  | [c] => N.eqb c dot || is_mark c
  | [c; c2] => N.eqb c dot && N.eqb c2 space
  | _ => false
  end.

(** The shape of what [re.split] returns: texts and delimiters in turn,
    a text first and last. *)
Fixpoint alternating (splits : list str) : Prop :=
  match splits with
  | [] => False
  | [_] => True
  | _ :: d :: rest => is_delimiter d = true /\ alternating rest
  end.

(** ** The packing step of [handle_play] *)

(** One turn of [for to_add in tts_sentence_split(text, True)], on the pair
    of [chunks] and [chunk]. *)
Definition pack_step (st : list str * str) (to_add : str) : list str * str :=
  let '(chunks, chunk) := st in
  let '(chunks, chunk) :=
    if 400 <=? length chunk + length to_add
    then (chunks ++ [strip chunk], [])
    else (chunks, chunk) in
  (chunks, chunk ++ to_add).

Definition pack_loop (st : list str * str) (frags : list str)
    : list str * str :=
  fold_left pack_step frags st.

(** The list [chunks] of [handle_play] once packing is over. *)
Definition pack (text : str) : list str :=
  let '(chunks, chunk) :=
    pack_loop ([], []) (tts_sentence_split text true) in
  if truthy chunk then chunks ++ [chunk] else chunks.

(** What is known of a chunk of [chunks] while the loop runs, and of the
    chunk being filled: it is short, or it is one long fragment. *)
Definition flushed_ok (all : list str) (c : str) : Prop :=
  length (strip c) < 400 \/
  exists f, In f all /\ 400 <= length f /\ c = strip f.

Definition filling_ok (all : list str) (chunk : str) : Prop :=
  length chunk < 400 \/ (In chunk all /\ 400 <= length chunk).

(** Groups of fragments as the loop makes them: a group is closed only
    when the first fragment of the next one would bring it to 400
    characters or more. *)
Fixpoint closed_at_limit (groups : list (list str)) : Prop :=
  match groups with
  | a :: rest =>
      match rest with
      | [] => True
      | [] :: _ => False
      | (f :: _) :: _ =>
          400 <= length (concat a) + length f /\ closed_at_limit rest
      end
  | [] => True
  end.

(** ** Exceptions, sources and requests of the call automation SDK *)

(** The exceptions a call of the SDK can raise, as far as the handlers of
    this file tell them apart.  [ResourceNotFoundError] is a subclass of
    [HttpResponseError]; the constructor [HttpResponseError] stands for
    the instances that are not a [ResourceNotFoundError], and
    [OtherException] for what is not an [HttpResponseError] at all. *)
Inductive exn : Type :=
| ResourceNotFoundError (message : str)
| HttpResponseError (message : str)
| OtherException (description : str).

Inductive PlaySource : Type :=
| FileSource (url : str)
| SsmlSource (ssml_text : str).

Inductive RecognizeInputType : Type := SPEECH | CHOICES.

Inductive LogLevel : Type := DEBUG | INFO | WARNING.

Inductive result (A : Type) : Type :=
| Returned (a : A)
| Raised (e : exn).

Arguments Returned {A} a.
Arguments Raised {A} e.

Record LanguageEntry : Type := {
  short_code : str;
  voice : str
}.

(** [CONFIG], as far as this file reads it: [CONFIG.resources.public_url]
    and [CONFIG.prompts.sounds.ready()], both as they are rendered. *)
Record Config : Type := {
  public_url : str;
  sounds_ready : str
}.

Definition PHRASE : str := lit "call already terminated".

Section CallUtils.

(** What the file imports: the style and persona enumerations of
    [models.message], the recognition choices of the SDK, the
    configuration, [str.lower], and the client of the call connection,
    a state machine that answers each request with success ([None]) or
    with a raised exception. *)
Variable MessageStyleEnum : Type.
Variable style_value : MessageStyleEnum -> str.
Variable style_format : MessageStyleEnum -> str.
Variable NONE : MessageStyleEnum.

Variable MessagePersonaEnum : Type.
Variable ASSISTANT : MessagePersonaEnum.
Variable persona_eq_dec :
  forall a b : MessagePersonaEnum, {a = b} + {a <> b}.

Variable RecognitionChoice : Type.
Variable CONFIG : Config.
Variable lower : str -> str.

Record MessageModel : Type := {
  content : str;
  persona : MessagePersonaEnum;
  style : MessageStyleEnum
}.

Record CallModel : Type := {
  lang : LanguageEntry;
  phone_number : str;
  messages : list MessageModel
}.

(** The keyword arguments of [start_recognizing_media]; [None] is an
    argument that is not passed. *)
Record RecognizeArgs : Type := {
  choices : option (list RecognitionChoice);
  end_silence_timeout : nat;
  input_type : RecognizeInputType;
  interrupt_prompt : option bool;
  play_prompt : PlaySource;
  speech_language : str;
  target_participant : str
}.

Variable ClientSt : Type.
Variable sdk_play_media :
  ClientSt -> option str -> PlaySource -> ClientSt * option exn.
Variable sdk_start_recognizing_media :
  ClientSt -> RecognizeArgs -> ClientSt * option exn.

(** What a run leaves behind, in order: log records and requests sent
    to the client. *)
Inductive Event : Type :=
| Log (level : LogLevel) (message : str)
| PlayMedia (operation_context : option str) (play_source : PlaySource)
| StartRecognizingMedia (args : RecognizeArgs).

(** The objects the functions share: the client, the call (its messages
    are updated in place) and the events so far. *)
Record World : Type := {
  w_client : ClientSt;
  w_call : CallModel;
  w_trace : list Event
}.

Definition M (A : Type) : Type := World -> World * result A.

Definition ret {A} (a : A) : M A := fun w => (w, Returned a).

Definition bind {A B} (m : M A) (k : A -> M B) : M B :=
  fun w =>
    match m w with
    | (w', Returned a) => k a w'
    | (w', Raised e) => (w', Raised e)
    end.

Definition raise {A} (e : exn) : M A := fun w => (w, Raised e).

(** [try: body except ...: handler]; a handler re-raises what it does
    not catch. *)
Definition try_except {A} (body : M A) (handler : exn -> M A) : M A :=
  fun w =>
    match body w with
    | (w', Returned a) => (w', Returned a)
    | (w', Raised e) => handler e w'
    end.

Declare Scope py_scope.
Delimit Scope py_scope with py.
Notation "x <- m ;; k" := (bind m (fun x => k))
  (at level 61, m at next level, right associativity) : py_scope.
Notation "m ;; k" := (bind m (fun _ => k))
  (at level 61, right associativity) : py_scope.
Local Open Scope py_scope.

Definition emit (ev : Event) : M unit :=
  fun w =>
    ({| w_client := w_client w; w_call := w_call w;
        w_trace := w_trace w ++ [ev] |}, Returned tt).

Definition log (level : LogLevel) (message : str) : M unit :=
  emit (Log level message).

Definition get_call : M CallModel := fun w => (w, Returned (w_call w)).

Definition set_messages (ms : list MessageModel) : M unit :=
  fun w =>
    ({| w_client := w_client w;
        w_call := {| lang := lang (w_call w);
                     phone_number := phone_number (w_call w);
                     messages := ms |};
        w_trace := w_trace w |}, Returned tt).

(** [client.play_media(operation_context=..., play_source=...)]. *)
Definition play_media (operation_context : option str)
    (play_source : PlaySource) : M unit :=
  fun w =>
    let '(c, r) := sdk_play_media (w_client w) operation_context play_source in
    let w' := {| w_client := c; w_call := w_call w;
                 w_trace := w_trace w
                            ++ [PlayMedia operation_context play_source] |} in
    match r with
    | None => (w', Returned tt)
    | Some e => (w', Raised e)
    end.

(** [client.start_recognizing_media(...)]. *)
Definition start_recognizing_media (args : RecognizeArgs) : M unit :=
  fun w =>
    let '(c, r) := sdk_start_recognizing_media (w_client w) args in
    let w' := {| w_client := c; w_call := w_call w;
                 w_trace := w_trace w ++ [StartRecognizingMedia args] |} in
    match r with
    | None => (w', Returned tt)
    | Some e => (w', Raised e)
    end.

(** [for x in xs: body(x)]; an exception ends the loop. *)
Fixpoint for_each {A} (xs : list A) (body : A -> M unit) : M unit :=
  match xs with
  | [] => ret tt
  | x :: xs' => body x ;; for_each xs' body
  end.

(** ** [_audio_from_text] *)

(** The f-string of [_audio_from_text], before [strip]. *)
Definition ssml_template (text : str) (style : MessageStyleEnum)
    (call : CallModel) : str :=
  [newline] ++
  litq "    <speak version='1.0' xmlns='http://www.w3.org/2001/10/synthesis' xmlns:mstts='https://www.w3.org/2001/mstts' xml:lang='"
    ++ short_code (lang call) ++ litq "'>" ++ [newline] ++
  litq "        <voice name='" ++ voice (lang call)
    ++ litq "' effect='eq_telecomhp8k'>" ++ [newline] ++
  litq "            <lexicon uri='" ++ public_url CONFIG
    ++ litq "/lexicon.xml' />" ++ [newline] ++
  litq "            <mstts:express-as style='" ++ style_value style
    ++ litq "' styledegree='0.5'>" ++ [newline] ++
  litq "                <prosody rate='0.95'>" ++ text
    ++ litq "</prosody>" ++ [newline] ++
  litq "            </mstts:express-as>" ++ [newline] ++
  litq "        </voice>" ++ [newline] ++
  litq "    </speak>" ++ [newline] ++
  litq "    ".

Definition TOO_LONG : str :=
  lit "Text is too long to be processed by TTS, truncating to 400 characters, fix this!".

Definition _audio_from_text (text : str) (style : MessageStyleEnum)
    (call : CallModel) : M PlaySource :=
  text <- (if 400 <? length text
           then log WARNING TOO_LONG ;; ret (firstn 400 text)
           else ret text) ;;
  let ssml := ssml_template text style call in
  ret (SsmlSource (strip ssml)).


(** ** [_handle_recognize_media] *)

Definition _handle_recognize_media (sound_url : str) : M unit :=
  log DEBUG (lit "Recognizing media") ;;
  try_except
    (call <- get_call ;;
     start_recognizing_media
       {| choices := None;
          end_silence_timeout := 3;
          input_type := SPEECH;
          interrupt_prompt := None;
          play_prompt := FileSource sound_url;
          speech_language := short_code (lang call);
          target_participant := phone_number call |})
    (fun e =>
       match e with
       | ResourceNotFoundError _ =>
           log DEBUG (lit "Call hung up before recognizing")
       | HttpResponseError message =>
           if contains PHRASE (lower message)
           then log DEBUG (lit "Call hung up before playing")
           else raise e
       | OtherException _ => raise e
       end).

(** ** [handle_media] *)

Definition handle_media (sound_url : str) (context : option str) : M unit :=
  try_except
    (play_media context (FileSource sound_url))
    (fun e =>
       match e with
       | ResourceNotFoundError _ =>
           log DEBUG (lit "Call hung up before playing")
       | HttpResponseError message =>
           if contains PHRASE (lower message)
           then log DEBUG (lit "Call hung up before playing")
           else raise e
       | OtherException _ => raise e
       end).

(** ** [handle_play] *)

(** [message.content += extra]. *)
Definition content_append (message : MessageModel) (extra : str)
    : MessageModel :=
  {| content := content message ++ extra;
     persona := persona message;
     style := style message |}.

(** The [if store:] block: the text goes to the last message when the
    assistant wrote it, and to a new message otherwise. *)
Definition store_text (text : str) (style : MessageStyleEnum) : M unit :=
  call <- get_call ;;
  match rev (messages call) with
  | last_message :: before =>
      if persona_eq_dec (persona last_message) ASSISTANT then
        set_messages
          (rev before ++ [content_append last_message (lit " " ++ text)])
      else
        set_messages
          (messages call ++
           [{| content := text; persona := ASSISTANT; style := style |}])
  | [] =>
      set_messages
        (messages call ++
         [{| content := text; persona := ASSISTANT; style := style |}])
  end.

(** The body of [for chunk in chunks]. *)
Definition play_chunk (text : str) (style : MessageStyleEnum)
    (context : option str) (chunk : str) : M unit :=
  log INFO (lit "Playing text: " ++ text ++ lit " (" ++ style_format style
            ++ lit ")") ;;
  call <- get_call ;;
  source <- _audio_from_text chunk style call ;;
  play_media context source.

Definition handle_play (text : str) (style : MessageStyleEnum)
    (context : option str) (store : bool) : M unit :=
  (if store then store_text text style else ret tt) ;;
  let chunks := pack text in
  try_except
    (for_each chunks (play_chunk text style context))
    (fun e =>
       match e with
       | ResourceNotFoundError _ =>
           log DEBUG (lit "Call hung up before playing")
       | HttpResponseError message =>
           if contains PHRASE (lower message)
           then log DEBUG (lit "Call hung up before playing")
           else raise e
       | OtherException _ => raise e
       end).

(** ** [handle_recognize_text] *)

Definition handle_recognize_text (style : MessageStyleEnum)
    (text : option str) (store : bool) : M unit :=
  match text with
  | Some ((_ :: _) as t) => handle_play t style None store
  | _ => ret tt
  end ;;
  _handle_recognize_media (sounds_ready CONFIG).

(** ** [handle_recognize_ivr] *)

Definition handle_recognize_ivr (text : str)
    (choices : list RecognitionChoice) : M unit :=
  log INFO (lit "Playing text before IVR: " ++ text) ;;
  log DEBUG (lit "Recognizing IVR") ;;
  try_except
    (call <- get_call ;;
     prompt <- _audio_from_text text NONE call ;;
     start_recognizing_media
       {| choices := Some choices;
          end_silence_timeout := 20;
          input_type := CHOICES;
          interrupt_prompt := Some true;
          play_prompt := prompt;
          speech_language := short_code (lang call);
          target_participant := phone_number call |})
    (fun e =>
       match e with
       | ResourceNotFoundError _ =>
           log DEBUG (lit "Call hung up before recognizing")
       | _ => raise e
       end).


(** ** Vocabulary of the properties *)

(** The two conditions under which a call that hung up is recognised: a
    resource that is not found, and an HTTP error whose message, in lower
    case, holds [PHRASE]. *)
Definition benign (e : exn) : bool :=
  match e with
  | ResourceNotFoundError _ => true
  | HttpResponseError message => contains PHRASE (lower message)
  | OtherException _ => false
  end.

(** The requests [play_media] of a trace, oldest first. *)
Fixpoint played (trace : list Event) : list (option str * PlaySource) :=
  match trace with
  | [] => []
  | PlayMedia operation_context play_source :: trace' =>
      (operation_context, play_source) :: played trace'
  | _ :: trace' => played trace'
  end.

(** The source that [_audio_from_text] builds for a text. *)
Definition synthesis (style : MessageStyleEnum) (call : CallModel)
    (text : str) : PlaySource :=
  SsmlSource (strip (ssml_template (firstn 400 text) style call)).

(** The document of [_audio_from_text] around the text it embeds, once
    trimmed. *)
Definition ssml_head (style : MessageStyleEnum) (call : CallModel) : str :=
  litq "<speak version='1.0' xmlns='http://www.w3.org/2001/10/synthesis' xmlns:mstts='https://www.w3.org/2001/mstts' xml:lang='"
    ++ short_code (lang call) ++ litq "'>" ++ [newline] ++
  litq "        <voice name='" ++ voice (lang call)
    ++ litq "' effect='eq_telecomhp8k'>" ++ [newline] ++
  litq "            <lexicon uri='" ++ public_url CONFIG
    ++ litq "/lexicon.xml' />" ++ [newline] ++
  litq "            <mstts:express-as style='" ++ style_value style
    ++ litq "' styledegree='0.5'>" ++ [newline] ++
  litq "                <prosody rate='0.95'>".

Definition ssml_tail : str :=
  litq "</prosody>" ++ [newline] ++
  litq "            </mstts:express-as>" ++ [newline] ++
  litq "        </voice>" ++ [newline] ++
  litq "    </speak>".

(** The world with one more event. *)
Definition with_event (w : World) (ev : Event) : World :=
  {| w_client := w_client w; w_call := w_call w;
     w_trace := w_trace w ++ [ev] |}.

(** One turn of the playback loop: an information record, a warning when
    the chunk is truncated, and the request, whose answer decides the
    outcome. *)
Definition after_play_chunk (text : str) (style : MessageStyleEnum)
    (context : option str) (chunk : str) (w : World) : World :=
  {| w_client :=
       fst (sdk_play_media (w_client w) context
              (synthesis style (w_call w) chunk));
     w_call := w_call w;
     w_trace :=
       w_trace w
       ++ [Log INFO (lit "Playing text: " ++ text ++ lit " ("
                     ++ style_format style ++ lit ")")]
       ++ (if 400 <? length chunk then [Log WARNING TOO_LONG] else [])
       ++ [PlayMedia context (synthesis style (w_call w) chunk)] |}.

(** The requests [start_recognizing_media] of a trace, oldest first. *)
Fixpoint recognized (trace : list Event) : list RecognizeArgs :=
  match trace with
  | [] => []
  | StartRecognizingMedia args :: trace' => args :: recognized trace'
  | _ :: trace' => recognized trace'
  end.

(** The messages of the warnings of a trace. *)
Fixpoint warnings (trace : list Event) : list str :=
  match trace with
  | [] => []
  | Log WARNING message :: trace' => message :: warnings trace'
  | _ :: trace' => warnings trace'
  end.

(** The arguments with which [_handle_recognize_media] starts the
    recognition. *)
Definition media_args (sound_url : str) (call : CallModel) : RecognizeArgs :=
  {| choices := None;
     end_silence_timeout := 3;
     input_type := SPEECH;
     interrupt_prompt := None;
     play_prompt := FileSource sound_url;
     speech_language := short_code (lang call);
     target_participant := phone_number call |}.

(** * Properties *)

(** ** Whitespace stripping *)

Lemma lstrip_length (s : str) : length (lstrip s) <= length s.
Proof.
  induction s as [|c r IH]; simpl; [lia|].
  destruct (isspace c); simpl; lia.
Qed.

Lemma strip_length (s : str) : length (strip s) <= length s.
Proof.
  unfold strip, rstrip. rewrite length_rev.
  etransitivity; [apply lstrip_length|].
  rewrite length_rev. apply lstrip_length.
Qed.

Lemma without_spaces_app (a b : str) :
  without_spaces (a ++ b) = without_spaces a ++ without_spaces b.
Proof. apply filter_app. Qed.

Lemma without_spaces_lstrip (s : str) :
  without_spaces (lstrip s) = without_spaces s.
Proof.
  induction s as [|c r IH]; simpl; [reflexivity|].
  destruct (isspace c) eqn:E; simpl; rewrite ?E; simpl; auto.
Qed.

Lemma without_spaces_rev (s : str) :
  without_spaces (rev s) = rev (without_spaces s).
Proof.
  induction s as [|c r IH]; simpl; [reflexivity|].
  rewrite without_spaces_app, IH. simpl.
  destruct (isspace c); simpl; [apply app_nil_r | reflexivity].
Qed.

Lemma without_spaces_strip (s : str) :
  without_spaces (strip s) = without_spaces s.
Proof.
  unfold strip, rstrip.
  rewrite without_spaces_rev, without_spaces_lstrip, without_spaces_rev.
  rewrite rev_involutive. apply without_spaces_lstrip.
Qed.

(** [strip] leaves alone a text that starts and ends with a character
    that is not whitespace. *)
Lemma lstrip_spaces_app (ws s : str) :
  forallb isspace ws = true -> lstrip (ws ++ s) = lstrip s.
Proof.
  induction ws as [|c r IH]; simpl; [reflexivity|].
  intros H. apply andb_prop in H as [Hc Hr]. rewrite Hc. auto.
Qed.

Lemma rstrip_framed (s post : str) (z : N) :
  forallb isspace post = true -> isspace z = false ->
  rstrip (s ++ z :: post) = s ++ [z].
Proof.
  intros Hpost Hz. unfold rstrip.
  rewrite rev_app_distr. simpl rev. rewrite <- !app_assoc.
  rewrite lstrip_spaces_app.
  - simpl. rewrite Hz. simpl. rewrite rev_involutive. reflexivity.
  - rewrite forallb_forall in *. intros x Hx. apply Hpost.
    apply in_rev. assumption.
Qed.

(** ** The sentence splitter *)

Lemma list_pair_ind (A : Type) (P : list A -> Prop) :
  P [] -> (forall x, P [x]) ->
  (forall x y l, P l -> P (x :: y :: l)) ->
  forall l, P l.
Proof.
  intros H0 H1 H2.
  fix IH 1. intros [|x [|y l]]; [exact H0 | apply H1 | apply H2, IH].
Qed.

Lemma even_step n : n mod 2 = 0 -> S n mod 2 = 1 /\ S (S n) mod 2 = 0.
Proof.
  intros H.
  pose proof (Nat.div_mod_eq n 2).
  pose proof (Nat.div_mod_eq (S n) 2).
  pose proof (Nat.div_mod_eq (S (S n)) 2).
  pose proof (Nat.mod_upper_bound (S n) 2).
  pose proof (Nat.mod_upper_bound (S (S n)) 2).
  lia.
Qed.

(** The loop over the indices yields what [join_pairs] reads off the
    list. *)
Lemma tts_iter_join (include_last : bool) (todo : list str) :
  forall done,
    length done mod 2 = 0 ->
    tts_iter (done ++ todo) include_last (length done) todo
    = join_pairs include_last todo.
Proof.
  induction todo as [|last|split delimiter rest IH] using list_pair_ind;
    intros done Hd.
  - reflexivity.
  - cbn [tts_iter join_pairs]. rewrite Hd. cbn [Nat.eqb].
    rewrite length_app. cbn [length].
    replace (length done + 1 - 1) with (length done) by lia.
    rewrite Nat.eqb_refl.
    destruct (negb (truthy last)), include_last; reflexivity.
  - destruct (even_step _ Hd) as [H1 H2].
    cbn [tts_iter join_pairs]. rewrite Hd, H1. cbn [Nat.eqb].
    assert (Hn : Nat.eqb (length done)
                   (length (done ++ split :: delimiter :: rest) - 1) = false).
    { apply Nat.eqb_neq. rewrite length_app. cbn [length]. lia. }
    assert (Hnth : nth (length done + 1)
                     (done ++ split :: delimiter :: rest) [] = delimiter).
    { rewrite app_nth2 by lia.
      replace (length done + 1 - length done) with 1 by lia. reflexivity. }
    assert (Hrec : tts_iter (done ++ split :: delimiter :: rest) include_last
                     (S (S (length done))) rest
                   = join_pairs include_last rest).
    { specialize (IH (done ++ [split; delimiter])).
      rewrite <- app_assoc in IH. cbn [app] in IH.
      rewrite length_app in IH. cbn [length] in IH.
      replace (length done + 2) with (S (S (length done))) in IH by lia.
      apply IH. exact H2. }
    rewrite Hn, Hnth, Hrec.
    destruct (negb (truthy split)); reflexivity.
Qed.

Lemma tts_sentence_split_join (text : str) (include_last : bool) :
  tts_sentence_split text include_last
  = join_pairs include_last (re_split text).
Proof.
  unfold tts_sentence_split. apply (tts_iter_join include_last _ []).
  reflexivity.
Qed.

Lemma re_split_from_concat (s : str) :
  forall cur, concat (re_split_from cur s) = cur ++ s.
Proof.
  remember (length s) as n eqn:Hn.
  revert s Hn. induction n as [n IH] using lt_wf_ind. intros s Hn cur.
  destruct s as [|c rest]; [simpl; rewrite !app_nil_r; reflexivity|].
  assert (Hskip : concat (re_split_from (cur ++ [c]) rest) = cur ++ c :: rest).
  { rewrite (IH (length rest)) by (subst; simpl; lia || reflexivity).
    rewrite <- app_assoc. reflexivity. }
  assert (Hone : concat (cur :: [c] :: re_split_from [] rest)
                 = cur ++ c :: rest).
  { simpl. rewrite (IH (length rest)) by (subst; simpl; lia || reflexivity).
    reflexivity. }
  cbn [re_split_from].
  destruct (N.eqb c dot) eqn:Ec.
  - apply N.eqb_eq in Ec. subst c.
    destruct rest as [|c2 rest2]; [exact Hone|].
    destruct (N.eqb c2 space) eqn:E2.
    + apply N.eqb_eq in E2. subst c2. simpl.
      rewrite (IH (length rest2)) by (subst; simpl; lia || reflexivity).
      reflexivity.
    + destruct (N.eqb c2 newline && negb (truthy rest2)).
      * exact Hone.
      * exact Hskip.
  - destruct (is_mark c); [exact Hone | exact Hskip].
Qed.

Lemma re_split_concat (text : str) : concat (re_split text) = text.
Proof. apply (re_split_from_concat text []). Qed.

Lemma join_pairs_concat (splits : list str) :
  forallb truthy (inner_segments splits) = true ->
  concat (join_pairs true splits) = concat splits.
Proof.
  induction splits as [|last|split delimiter rest IH] using list_pair_ind;
    intros H.
  - reflexivity.
  - destruct last; reflexivity.
  - cbn [inner_segments forallb] in H. apply andb_prop in H as [Hs Hr].
    cbn [join_pairs]. rewrite Hs. cbn [negb concat].
    rewrite IH by assumption. rewrite <- app_assoc. reflexivity.
Qed.

(** Where no text between two matches is empty, the yielded fragments
    put together are the text. *)
Lemma tts_sentence_split_concat (text : str) :
  no_empty_segment text = true ->
  concat (tts_sentence_split text true) = text.
Proof.
  intros H. rewrite tts_sentence_split_join, join_pairs_concat by exact H.
  apply re_split_concat.
Qed.

(** Every yielded fragment is a non-empty text. *)
Lemma join_pairs_truthy (include_last : bool) (splits : list str) :
  Forall (fun f => truthy f = true) (join_pairs include_last splits).
Proof.
  induction splits as [|last|split delimiter rest IH] using list_pair_ind.
  - constructor.
  - cbn [join_pairs]. destruct last; simpl; [constructor|].
    destruct include_last; repeat constructor.
  - cbn [join_pairs]. destruct split; simpl; [exact IH|].
    constructor; [reflexivity | exact IH].
Qed.

(** ** The packing step *)

Lemma pack_loop_cons (st : list str * str) (f : str) (frags : list str) :
  pack_loop st (f :: frags) = pack_loop (pack_step st f) frags.
Proof. reflexivity. Qed.

Lemma pack_step_keep (chunks : list str) (chunk f : str) :
  length chunk + length f < 400 ->
  pack_step (chunks, chunk) f = (chunks, chunk ++ f).
Proof.
  intros H. unfold pack_step.
  destruct (Nat.leb_spec 400 (length chunk + length f)); [lia | reflexivity].
Qed.

Lemma pack_step_flush (chunks : list str) (chunk f : str) :
  400 <= length chunk + length f ->
  pack_step (chunks, chunk) f = (chunks ++ [strip chunk], f).
Proof.
  intros H. unfold pack_step.
  destruct (Nat.leb_spec 400 (length chunk + length f)); [reflexivity | lia].
Qed.

(** Below the limit nothing is flushed. *)
Lemma pack_loop_short (frags : list str) :
  forall chunks chunk,
    length chunk + length (concat frags) < 400 ->
    pack_loop (chunks, chunk) frags = (chunks, chunk ++ concat frags).
Proof.
  induction frags as [|f frags IH]; intros chunks chunk H.
  - simpl. rewrite app_nil_r. reflexivity.
  - simpl concat in *. rewrite length_app in H.
    rewrite pack_loop_cons, pack_step_keep by lia.
    rewrite IH by (rewrite length_app; lia).
    rewrite <- app_assoc. reflexivity.
Qed.

(** Flushing loses whitespace only. *)
Lemma pack_loop_without_spaces (frags : list str) :
  forall chunks chunk,
    without_spaces (concat (fst (pack_loop (chunks, chunk) frags))
                    ++ snd (pack_loop (chunks, chunk) frags))
    = without_spaces (concat chunks ++ chunk ++ concat frags).
Proof.
  induction frags as [|f frags IH]; intros chunks chunk.
  - simpl. rewrite app_nil_r. reflexivity.
  - rewrite pack_loop_cons.
    destruct (Nat.leb_spec 400 (length chunk + length f)) as [Hge|Hlt].
    + rewrite pack_step_flush by exact Hge. rewrite IH.
      rewrite concat_app. simpl concat. rewrite app_nil_r.
      rewrite !without_spaces_app, without_spaces_strip.
      rewrite <- !app_assoc. reflexivity.
    + rewrite pack_step_keep by exact Hlt. rewrite IH.
      simpl concat. rewrite <- !app_assoc. reflexivity.
Qed.

Lemma pack_unfold (text : str) :
  pack text
  = if truthy (snd (pack_loop ([], []) (tts_sentence_split text true)))
    then fst (pack_loop ([], []) (tts_sentence_split text true))
         ++ [snd (pack_loop ([], []) (tts_sentence_split text true))]
    else fst (pack_loop ([], []) (tts_sentence_split text true)).
Proof.
  unfold pack.
  destruct (pack_loop ([], []) (tts_sentence_split text true)).
  reflexivity.
Qed.


Lemma pack_loop_invariant (all frags : list str) :
  forall chunks chunk,
    incl frags all ->
    Forall (flushed_ok all) chunks -> filling_ok all chunk ->
    Forall (flushed_ok all) (fst (pack_loop (chunks, chunk) frags))
    /\ filling_ok all (snd (pack_loop (chunks, chunk) frags)).
Proof.
  induction frags as [|f frags IH]; intros chunks chunk Hincl Hc Hk.
  - split; assumption.
  - rewrite pack_loop_cons.
    assert (Hf : In f all) by (apply Hincl; left; reflexivity).
    assert (Hrest : incl frags all)
      by (intros x Hx; apply Hincl; right; exact Hx).
    destruct (Nat.leb_spec 400 (length chunk + length f)) as [Hge|Hlt].
    + rewrite pack_step_flush by exact Hge.
      apply IH; [exact Hrest | |].
      * apply Forall_app. split; [exact Hc|]. constructor; [|constructor].
        destruct Hk as [Hshort | [Hin Hlong]].
        -- left. pose proof (strip_length (strip chunk)).
           pose proof (strip_length chunk). lia.
        -- right. exists chunk. auto.
      * destruct (Nat.lt_ge_cases (length f) 400); [left | right]; auto.
    + rewrite pack_step_keep by exact Hlt.
      apply IH; [exact Hrest | exact Hc |].
      left. rewrite length_app. exact Hlt.
Qed.

Lemma Forall_removelast (A : Type) (P : A -> Prop) (l : list A) :
  Forall P l -> Forall P (removelast l).
Proof.
  induction l as [|x l IH]; intros H; [constructor|].
  inversion H; subst. destruct l; [constructor|].
  change (Forall P (x :: removelast (a :: l))). constructor; auto.
Qed.

(** The loop does not flush the chunk it fills when the fragments are
    used up: with one fragment or more, the last chunk of [pack] is the
    chunk being filled, as it is. *)
Lemma pack_loop_snd_truthy (frags : list str) :
  forall chunks chunk,
    Forall (fun f => truthy f = true) frags ->
    truthy chunk = true \/ frags <> [] ->
    truthy (snd (pack_loop (chunks, chunk) frags)) = true.
Proof.
  induction frags as [|f frags IH]; intros chunks chunk Hall H.
  - destruct H as [H|H]; [exact H | congruence].
  - rewrite pack_loop_cons. inversion Hall; subst.
    assert (Hf : forall c, truthy (c ++ f) = true).
    { intros c. destruct c; [assumption | reflexivity]. }
    destruct (Nat.leb_spec 400 (length chunk + length f)) as [Hge|Hlt].
    + rewrite pack_step_flush by exact Hge. apply IH; auto.
    + rewrite pack_step_keep by exact Hlt. apply IH; auto.
Qed.

Lemma only_terminators_split (text : str) :
  only_terminators text = true ->
  join_pairs true (re_split text) = [].
Proof.
  unfold re_split.
  induction text as [|c rest IH]; intros H; [reflexivity|].
  cbn [only_terminators] in H. cbn [re_split_from].
  destruct (is_mark c) eqn:Em.
  - assert (Ed : N.eqb c dot = false).
    { unfold is_mark in Em. apply N.eqb_neq. intros ->. discriminate. }
    rewrite Ed. cbn [join_pairs truthy negb]. auto.
  - apply andb_prop in H as [Hd Hr]. rewrite Hd.
    destruct rest; [reflexivity | discriminate].
Qed.

Lemma pack_loop_prefix (frags : list str) :
  forall chunks chunk,
    exists more, fst (pack_loop (chunks, chunk) frags) = chunks ++ more.
Proof.
  induction frags as [|f frags IH]; intros chunks chunk.
  - exists []. simpl. rewrite app_nil_r. reflexivity.
  - rewrite pack_loop_cons.
    destruct (Nat.leb_spec 400 (length chunk + length f)) as [Hge|Hlt].
    + rewrite pack_step_flush by exact Hge.
      destruct (IH (chunks ++ [strip chunk]) f) as [more Hm].
      exists (strip chunk :: more). rewrite Hm, <- app_assoc. reflexivity.
    + rewrite pack_step_keep by exact Hlt. apply IH.
Qed.

(** ** The effects *)

Lemma played_app (t1 t2 : list Event) :
  played (t1 ++ t2) = played t1 ++ played t2.
Proof.
  induction t1 as [|ev t1 IH]; [reflexivity|].
  destruct ev; simpl; rewrite IH; reflexivity.
Qed.

Lemma ssml_template_lang (text : str) (style : MessageStyleEnum)
    (c1 c2 : CallModel) :
  lang c1 = lang c2 ->
  ssml_template text style c1 = ssml_template text style c2.
Proof. intros H. unfold ssml_template. rewrite H. reflexivity. Qed.

Lemma synthesis_lang (style : MessageStyleEnum) (c1 c2 : CallModel)
    (text : str) :
  lang c1 = lang c2 -> synthesis style c1 text = synthesis style c2 text.
Proof.
  intros H. unfold synthesis.
  rewrite (ssml_template_lang _ _ c1 c2 H). reflexivity.
Qed.

Lemma firstn_short (A : Type) (n : nat) (l : list A) :
  length l <= n -> firstn n l = l.
Proof. apply firstn_all2. Qed.

(** [_audio_from_text] returns, and logs a warning where it truncates. *)
Lemma audio_from_text_run (text : str) (style : MessageStyleEnum)
    (call : CallModel) (w : World) :
  _audio_from_text text style call w
  = (if 400 <? length text then with_event w (Log WARNING TOO_LONG) else w,
     Returned (synthesis style call text)).
Proof.
  unfold _audio_from_text, synthesis, bind, log, emit, ret, with_event.
  destruct (Nat.ltb_spec 400 (length text)) as [Hlong|Hshort].
  - reflexivity.
  - rewrite firstn_short by exact Hshort. reflexivity.
Qed.

(** The [if store:] block returns, and touches the messages only. *)
Lemma store_run (text : str) (style : MessageStyleEnum) (store : bool)
    (w : World) :
  exists ms,
    (if store then store_text text style else ret tt) w
    = ({| w_client := w_client w;
          w_call := {| lang := lang (w_call w);
                       phone_number := phone_number (w_call w);
                       messages := ms |};
          w_trace := w_trace w |}, Returned tt).
Proof.
  destruct store.
  - unfold store_text, bind, get_call, set_messages.
    destruct (rev (messages (w_call w))) as [|m before].
    + eexists. reflexivity.
    + destruct (persona_eq_dec (persona m) ASSISTANT); eexists; reflexivity.
  - exists (messages (w_call w)). unfold ret.
    destruct w as [c [l p ms] t]. reflexivity.
Qed.

Lemma play_chunk_run (text : str) (style : MessageStyleEnum)
    (context : option str) (chunk : str) (w : World) :
  play_chunk text style context chunk w
  = (after_play_chunk text style context chunk w,
     match snd (sdk_play_media (w_client w) context
                  (synthesis style (w_call w) chunk)) with
     | None => Returned tt
     | Some e => Raised e
     end).
Proof.
  unfold play_chunk, bind, log, emit, get_call. cbn [w_call w_client w_trace].
  rewrite audio_from_text_run. unfold play_media, after_play_chunk.
  destruct (400 <? length chunk); cbn [with_event w_call w_client w_trace];
    destruct (sdk_play_media (w_client w) context
                (synthesis style (w_call w) chunk)) as [c [e|]];
    cbn [fst snd]; rewrite <- ?app_assoc; reflexivity.
Qed.

Lemma after_play_chunk_played (text : str) (style : MessageStyleEnum)
    (context : option str) (chunk : str) (w : World) :
  played (w_trace (after_play_chunk text style context chunk w))
  = played (w_trace w) ++ [(context, synthesis style (w_call w) chunk)].
Proof.
  unfold after_play_chunk. cbn [w_trace]. rewrite !played_app.
  destruct (400 <? length chunk); reflexivity.
Qed.

Lemma for_each_app (A : Type) (xs ys : list A) (body : A -> M unit)
    (w : World) :
  for_each (xs ++ ys) body w
  = match for_each xs body w with
    | (w', Returned _) => for_each ys body w'
    | (w', Raised e) => (w', Raised e)
    end.
Proof.
  revert w. induction xs as [|x xs IH]; intros w; [reflexivity|].
  cbn [app for_each]. unfold bind.
  destruct (body x w) as [w' [[]|e]]; [apply IH | reflexivity].
Qed.

(** While the requests succeed, the loop sends the chunks one by one and
    leaves the call as it is. *)
Lemma for_each_play_returned (text : str) (style : MessageStyleEnum)
    (context : option str) (chunks : list str) :
  forall w w',
    for_each chunks (play_chunk text style context) w = (w', Returned tt) ->
    w_call w' = w_call w /\
    played (w_trace w')
    = played (w_trace w)
      ++ map (fun c => (context, synthesis style (w_call w) c)) chunks.
Proof.
  induction chunks as [|c chunks IH]; intros w w' H.
  - inversion H; subst. rewrite app_nil_r. auto.
  - cbn [for_each] in H. unfold bind in H. rewrite play_chunk_run in H.
    destruct (snd (sdk_play_media (w_client w) context
                     (synthesis style (w_call w) c))); [discriminate|].
    apply IH in H as [Hc Hp]. rewrite after_play_chunk_played in Hp.
    cbn [after_play_chunk w_call] in Hc, Hp. split; [exact Hc|].
    rewrite Hp, <- app_assoc. reflexivity.
Qed.

(** ** The document *)

Lemma strip_between (pre post s s1 s2 : str) (a z : N) :
  forallb isspace pre = true -> forallb isspace post = true ->
  s = a :: s1 -> s = s2 ++ [z] ->
  isspace a = false -> isspace z = false ->
  strip (pre ++ s ++ post) = s.
Proof.
  intros Hpre Hpost Ha Hz Hsa Hsz. unfold strip.
  rewrite lstrip_spaces_app by exact Hpre.
  assert (Hl : lstrip (s ++ post) = s ++ post).
  { rewrite Ha. simpl. rewrite Hsa. reflexivity. }
  rewrite Hl, Hz, <- app_assoc. simpl.
  apply rstrip_framed; assumption.
Qed.

Lemma ssml_template_frame (text : str) (style : MessageStyleEnum)
    (call : CallModel) :
  ssml_template text style call
  = (newline :: litq "    ")
    ++ (ssml_head style call ++ text ++ ssml_tail)
    ++ (newline :: litq "    ").
Proof.
  unfold ssml_template, ssml_head, ssml_tail.
  repeat rewrite <- app_assoc. reflexivity.
Qed.

(** The document starts with [<] and ends with [>]. *)
Lemma ssml_document_ends (text : str) (style : MessageStyleEnum)
    (call : CallModel) :
  exists s1 s2,
    ssml_head style call ++ text ++ ssml_tail = 60%N :: s1
    /\ ssml_head style call ++ text ++ ssml_tail = s2 ++ [62%N].
Proof.
  exists (tl (ssml_head style call ++ text ++ ssml_tail)).
  exists (ssml_head style call ++ text
          ++ litq "</prosody>" ++ [newline] ++
          litq "            </mstts:express-as>" ++ [newline] ++
          litq "        </voice>" ++ [newline] ++
          litq "    </speak").
  split; [reflexivity|].
  unfold ssml_tail. repeat rewrite <- app_assoc. reflexivity.
Qed.

(** Trimming removes the indentation around the document and nothing
    else, whatever the text is. *)
Lemma ssml_template_strip (text : str) (style : MessageStyleEnum)
    (call : CallModel) :
  strip (ssml_template text style call)
  = ssml_head style call ++ text ++ ssml_tail.
Proof.
  rewrite ssml_template_frame.
  destruct (ssml_document_ends text style call) as (s1 & s2 & H1 & H2).
  apply (strip_between _ _ _ s1 s2 60%N 62%N); auto.
Qed.

Lemma ssml_document_trimmed (text : str) (style : MessageStyleEnum)
    (call : CallModel) :
  strip (ssml_head style call ++ text ++ ssml_tail)
  = ssml_head style call ++ text ++ ssml_tail.
Proof.
  destruct (ssml_document_ends text style call) as (s1 & s2 & H1 & H2).
  generalize dependent (ssml_head style call ++ text ++ ssml_tail).
  intros d H1 H2.
  rewrite <- (app_nil_r d) at 1.
  apply (strip_between [] [] d s1 s2 60%N 62%N); auto.
Qed.

(** [handle_play] as a whole: the messages, the loop, and the handler
    applied to what the loop raises. *)
Lemma handle_play_run (text : str) (style : MessageStyleEnum)
    (context : option str) (store : bool) (w : World) :
  handle_play text style context store w
  = match for_each (pack text) (play_chunk text style context)
            (fst ((if store then store_text text style else ret tt) w)) with
    | (w', Returned _) => (w', Returned tt)
    | (w', Raised e) =>
        if benign e
        then (with_event w' (Log DEBUG (lit "Call hung up before playing")),
              Returned tt)
        else (w', Raised e)
    end.
Proof.
  unfold handle_play, bind.
  destruct (store_run text style store w) as [ms Hs]. rewrite Hs.
  cbn [fst]. unfold try_except.
  destruct (for_each (pack text) (play_chunk text style context) _)
    as [w' [[]|e]]; [reflexivity|].
  destruct e as [m|m|d]; cbn [benign]; try reflexivity.
  destruct (contains PHRASE (lower m)); reflexivity.
Qed.

Lemma store_fst (text : str) (style : MessageStyleEnum) (store : bool)
    (w : World) :
  w_client (fst ((if store then store_text text style else ret tt) w))
  = w_client w
  /\ lang (w_call (fst ((if store then store_text text style else ret tt) w)))
     = lang (w_call w)
  /\ w_trace (fst ((if store then store_text text style else ret tt) w))
     = w_trace w.
Proof.
  destruct (store_run text style store w) as [ms Hs]. rewrite Hs.
  repeat split.
Qed.

(** The loop only adds to the trace. *)
Lemma for_each_play_extends (text : str) (style : MessageStyleEnum)
    (context : option str) (chunks : list str) :
  forall w, exists t,
    w_trace (fst (for_each chunks (play_chunk text style context) w))
    = w_trace w ++ t.
Proof.
  induction chunks as [|c chunks IH]; intros w.
  - exists []. simpl. rewrite app_nil_r. reflexivity.
  - cbn [for_each]. unfold bind. rewrite play_chunk_run.
    destruct (snd (sdk_play_media (w_client w) context
                     (synthesis style (w_call w) c))).
    + eexists. cbn [fst after_play_chunk w_trace]. reflexivity.
    + destruct (IH (after_play_chunk text style context c w)) as [t Ht].
      rewrite Ht. cbn [after_play_chunk w_trace].
      eexists. rewrite <- app_assoc. reflexivity.
Qed.

(** With a chunk to play, the first thing [handle_play] does after the
    messages is the first turn of the loop. *)
Lemma handle_play_first (text : str) (style : MessageStyleEnum)
    (context : option str) (store : bool) (w : World) (c : str)
    (more : list str) :
  pack text = c :: more ->
  exists rest,
    w_trace (fst (handle_play text style context store w))
    = w_trace
        (after_play_chunk text style context c
           (fst ((if store then store_text text style else ret tt) w)))
      ++ rest.
Proof.
  intros Hp. rewrite handle_play_run, Hp.
  set (w0 := fst ((if store then store_text text style else ret tt) w)).
  cbn [for_each]. unfold bind. rewrite play_chunk_run.
  destruct (snd (sdk_play_media (w_client w0) context
                   (synthesis style (w_call w0) c))) as [e|].
  - destruct (benign e); cbn [fst with_event w_trace].
    + eexists. reflexivity.
    + exists []. rewrite app_nil_r. reflexivity.
  - destruct (for_each_play_extends text style context more
                (after_play_chunk text style context c w0)) as [t Ht].
    destruct (for_each more (play_chunk text style context)
                (after_play_chunk text style context c w0))
      as [w' [[]|e]]; cbn [fst] in *.
    + exists t. exact Ht.
    + destruct (benign e); cbn [fst with_event w_trace]; rewrite Ht.
      * eexists. rewrite <- app_assoc. reflexivity.
      * exists t. reflexivity.
Qed.




(** * The claims *)

(** C7. [tts_sentence_split("Hello. World!", True)] yields ["Hello. "] and
    ["World!"], in this order, and [tts_sentence_split("Hello. World",
    False)] yields ["Hello. "] only: the last text, which no delimiter
    ends, is dropped. *)
Theorem tts_sentence_split_hello :
  tts_sentence_split (lit "Hello. World!") true
  = [lit "Hello. "; lit "World!"]
  /\ tts_sentence_split (lit "Hello. World") false = [lit "Hello. "].
Proof. split; vm_compute; reflexivity. Qed.



(** C2, as stated, fails: of the three chunks of 400 [a], a [!] and a [b],
    the second one, which is not the last, has 401 characters, stripped
    or not. *)
Lemma pack_bound_counterexample :
  exists text c,
    text = repeat 97%N 400 ++ lit "!b"
    /\ c = repeat 97%N 400 ++ lit "!"
    /\ pack text = [[]; c; lit "b"]
    /\ In c (removelast (pack text))
    /\ length (strip c) = 401.
Proof.
  do 2 eexists. split; [reflexivity|]. split; [reflexivity|].
  assert (H : pack (repeat 97%N 400 ++ lit "!b")
              = [[]; repeat 97%N 400 ++ lit "!"; lit "b"])
    by (vm_compute; reflexivity).
  split; [exact H | split].
  - rewrite H. simpl. right. left. reflexivity.
  - vm_compute. reflexivity.
Qed.

(** C2, amended.  Every chunk but the last one has fewer than 400
    characters once stripped, or is, stripped, one fragment of 400
    characters or more. *)
Theorem pack_bound (text : str) :
  Forall
    (fun c =>
       length (strip c) < 400 \/
       exists f, In f (tts_sentence_split text true)
                 /\ 400 <= length f /\ c = strip f)
    (removelast (pack text)).
Proof.
  set (frags := tts_sentence_split text true).
  destruct (pack_loop_invariant frags frags [] [])
    as [Hchunks _].
  - apply incl_refl.
  - constructor.
  - left. simpl. lia.
  - rewrite pack_unfold. fold frags.
    destruct (truthy (snd (pack_loop ([], []) frags))).
    + rewrite removelast_last. exact Hchunks.
    + apply Forall_removelast. exact Hchunks.
Qed.

Lemma pack_single_long (text f : str) :
  tts_sentence_split text true = [f] -> 400 <= length f ->
  pack text = [[]; f].
Proof.
  intros Hs Hl. unfold pack. rewrite Hs.
  unfold pack_loop. cbn [fold_left].
  rewrite pack_step_flush by (simpl; lia).
  destruct f; [simpl in Hl; lia | reflexivity].
Qed.

(** C3.  The code does not do what the claim says: for a text that is
    one fragment of 500 characters the chunks are two, the empty text and
    the fragment. *)
Theorem pack_single_500 (text f : str) :
  tts_sentence_split text true = [f] -> length f = 500 ->
  pack text = [[]; f] /\ length (pack text) = 2.
Proof.
  intros Hs Hl.
  rewrite (pack_single_long text f Hs) by lia. split; reflexivity.
Qed.

(** C4.  When the requests for the chunks [pre] succeed and the request
    for the next chunk raises [e], [handle_play] stops there: it returns,
    after a debug record, when [e] is a resource that is not found or an
    HTTP error whose message in lower case holds "call already
    terminated", and it raises [e] itself otherwise.  The requests sent
    are those of [pre] and of this chunk; none is sent for [post]. *)
Theorem handle_play_hangup (text : str) (style : MessageStyleEnum)
    (context : option str) (store : bool) (w w1 : World)
    (pre post : list str) (chunk : str) (e : exn) :
  pack text = pre ++ chunk :: post ->
  for_each pre (play_chunk text style context)
    (fst ((if store then store_text text style else ret tt) w))
  = (w1, Returned tt) ->
  snd (sdk_play_media (w_client w1) context
         (synthesis style (w_call w1) chunk)) = Some e ->
  handle_play text style context store w
  = (if benign e
     then (with_event (after_play_chunk text style context chunk w1)
             (Log DEBUG (lit "Call hung up before playing")),
           Returned tt)
     else (after_play_chunk text style context chunk w1, Raised e))
  /\ played (w_trace (fst (handle_play text style context store w)))
     = played (w_trace w)
       ++ map (fun c => (context, synthesis style (w_call w) c))
            (pre ++ [chunk]).
Proof.
  intros Hpack Hpre Hsdk.
  assert (Hrun :
    handle_play text style context store w
    = (if benign e
       then (with_event (after_play_chunk text style context chunk w1)
               (Log DEBUG (lit "Call hung up before playing")),
             Returned tt)
       else (after_play_chunk text style context chunk w1, Raised e))).
  { rewrite handle_play_run, Hpack, for_each_app, Hpre.
    cbn [for_each]. unfold bind. rewrite play_chunk_run, Hsdk.
    reflexivity. }
  split; [exact Hrun|].
  destruct (store_fst text style store w) as (_ & Hlang & Htrace).
  apply for_each_play_returned in Hpre as [Hcall Hplayed].
  assert (Hfinal :
    played (w_trace (fst (handle_play text style context store w)))
    = played (w_trace (after_play_chunk text style context chunk w1))).
  { rewrite Hrun. destruct (benign e); cbn [fst with_event w_trace].
    - rewrite played_app. simpl. apply app_nil_r.
    - reflexivity. }
  rewrite Hfinal, after_play_chunk_played, Hplayed, Htrace, Hcall.
  rewrite map_app, <- app_assoc. cbn [map].
  rewrite (synthesis_lang style _ (w_call w) chunk Hlang).
  f_equal. f_equal. apply map_ext. intros c.
  rewrite (synthesis_lang style _ (w_call w) c Hlang). reflexivity.
Qed.

(** C5.  A text of more than 400 characters is cut to its first 400
    characters, which are what the document embeds, and a warning is
    logged; a text of 400 characters or fewer is embedded whole and
    nothing is logged. *)
Theorem audio_from_text_truncation (text : str) (style : MessageStyleEnum)
    (call : CallModel) (w : World) :
  (400 < length text ->
   _audio_from_text text style call w
   = (with_event w (Log WARNING TOO_LONG),
      Returned (SsmlSource
                  (ssml_head style call ++ firstn 400 text ++ ssml_tail)))
   /\ length (firstn 400 text) = 400)
  /\ (length text <= 400 ->
      _audio_from_text text style call w
      = (w, Returned (SsmlSource
                        (ssml_head style call ++ text ++ ssml_tail)))).
Proof.
  rewrite audio_from_text_run. unfold synthesis.
  rewrite ssml_template_strip. split; intros H.
  - destruct (Nat.ltb_spec 400 (length text)); [|lia]. split; [reflexivity|].
    rewrite length_firstn. lia.
  - destruct (Nat.ltb_spec 400 (length text)); [lia|].
    rewrite firstn_short by exact H. reflexivity.
Qed.

(** C6.  [_audio_from_text] returns a trimmed document: its language is
    the short code of the language of the call, its voice the voice of
    that language, its lexicon the public URL followed by
    [/lexicon.xml], its style the value of the style with the degree
    0.5, its prosody rate 0.95, and the text, cut to 400 characters, is
    in it as it is, with nothing escaped. *)
Theorem audio_from_text_document (text : str) (style : MessageStyleEnum)
    (call : CallModel) (w : World) :
  let document :=
    litq "<speak version='1.0' xmlns='http://www.w3.org/2001/10/synthesis' xmlns:mstts='https://www.w3.org/2001/mstts' xml:lang='"
      ++ short_code (lang call) ++ litq "'>" ++ [newline] ++
    litq "        <voice name='" ++ voice (lang call)
      ++ litq "' effect='eq_telecomhp8k'>" ++ [newline] ++
    litq "            <lexicon uri='" ++ public_url CONFIG
      ++ litq "/lexicon.xml" ++ litq "' />" ++ [newline] ++
    litq "            <mstts:express-as style='" ++ style_value style
      ++ litq "' styledegree='0.5'>" ++ [newline] ++
    litq "                <prosody rate='0.95'>" ++ firstn 400 text
      ++ litq "</prosody>" ++ [newline] ++
    litq "            </mstts:express-as>" ++ [newline] ++
    litq "        </voice>" ++ [newline] ++
    litq "    </speak>" in
  snd (_audio_from_text text style call w)
  = Returned (SsmlSource document)
  /\ strip document = document.
Proof.
  assert (Hdoc :
    forall body, ssml_head style call ++ body ++ ssml_tail
    = litq "<speak version='1.0' xmlns='http://www.w3.org/2001/10/synthesis' xmlns:mstts='https://www.w3.org/2001/mstts' xml:lang='"
      ++ short_code (lang call) ++ litq "'>" ++ [newline] ++
    litq "        <voice name='" ++ voice (lang call)
      ++ litq "' effect='eq_telecomhp8k'>" ++ [newline] ++
    litq "            <lexicon uri='" ++ public_url CONFIG
      ++ litq "/lexicon.xml" ++ litq "' />" ++ [newline] ++
    litq "            <mstts:express-as style='" ++ style_value style
      ++ litq "' styledegree='0.5'>" ++ [newline] ++
    litq "                <prosody rate='0.95'>" ++ body
      ++ litq "</prosody>" ++ [newline] ++
    litq "            </mstts:express-as>" ++ [newline] ++
    litq "        </voice>" ++ [newline] ++
    litq "    </speak>").
  { intros body. unfold ssml_head, ssml_tail.
    repeat rewrite <- app_assoc. reflexivity. }
  cbv zeta. rewrite <- Hdoc. split.
  - rewrite audio_from_text_run. unfold synthesis.
    rewrite ssml_template_strip. reflexivity.
  - apply ssml_document_trimmed.
Qed.

(** C8.  [handle_recognize_ivr] catches a resource that is not found and
    nothing else: whatever else the request raises is raised to the
    caller, an HTTP error whose message holds "call already terminated"
    included.  [_handle_recognize_media] and [handle_play] return on the
    two conditions of [benign], so that neither raises such an error. *)
Theorem handle_recognize_ivr_only_not_found (text : str)
    (choices : list RecognitionChoice) (sound_url : str)
    (style : MessageStyleEnum) (context : option str) (store : bool)
    (w : World) :
  snd (handle_recognize_ivr text choices w)
  = match
      snd (sdk_start_recognizing_media (w_client w)
             {| choices := Some choices;
                end_silence_timeout := 20;
                input_type := CHOICES;
                interrupt_prompt := Some true;
                play_prompt := synthesis NONE (w_call w) text;
                speech_language := short_code (lang (w_call w));
                target_participant := phone_number (w_call w) |})
    with
    | None => Returned tt
    | Some (ResourceNotFoundError _) => Returned tt
    | Some (HttpResponseError message) => Raised (HttpResponseError message)
    | Some (OtherException description) =>
        Raised (OtherException description)
    end
  /\ snd (_handle_recognize_media sound_url w)
     = match
         snd (sdk_start_recognizing_media (w_client w)
                {| choices := None;
                   end_silence_timeout := 3;
                   input_type := SPEECH;
                   interrupt_prompt := None;
                   play_prompt := FileSource sound_url;
                   speech_language := short_code (lang (w_call w));
                   target_participant := phone_number (w_call w) |})
       with
       | None => Returned tt
       | Some (ResourceNotFoundError _) => Returned tt
       | Some (HttpResponseError message) =>
           if contains PHRASE (lower message) then Returned tt
           else Raised (HttpResponseError message)
       | Some (OtherException description) =>
           Raised (OtherException description)
       end
  /\ match snd (handle_play text style context store w) with
     | Returned _ => True
     | Raised (ResourceNotFoundError _) => False
     | Raised (HttpResponseError message) =>
         contains PHRASE (lower message) = false
     | Raised (OtherException _) => True
     end.
Proof.
  split; [|split].
  - unfold handle_recognize_ivr, bind, try_except, log, emit, get_call.
    cbn [w_call w_client w_trace]. rewrite audio_from_text_run.
    unfold start_recognizing_media.
    destruct (400 <? length text); cbn [with_event w_call w_client w_trace];
      destruct (sdk_start_recognizing_media _ _) as [c [[m|m|d]|]];
      reflexivity.
  - unfold _handle_recognize_media, bind, try_except, log, emit, get_call.
    cbn [w_call w_client w_trace]. unfold start_recognizing_media.
    destruct (sdk_start_recognizing_media _ _) as [c [[m|m|d]|]];
      try reflexivity.
    cbn [snd]. destruct (contains PHRASE (lower m)); reflexivity.
  - rewrite handle_play_run.
    destruct (for_each (pack text) (play_chunk text style context) _)
      as [w' [[]|e]]; [exact I|].
    destruct e as [m|m|d]; cbn [benign snd]; auto.
    destruct (contains PHRASE (lower m)) eqn:E; cbn [snd]; auto.
Qed.

(** C9.  When the first fragment has 400 characters or more, the first
    chunk is the empty text, and the first request of [handle_play] is
    for it: after the information record comes the request whose
    document embeds no text. *)
Theorem handle_play_empty_first_chunk (text : str)
    (style : MessageStyleEnum) (context : option str) (store : bool)
    (w : World) (f : str) (fs : list str) :
  tts_sentence_split text true = f :: fs -> 400 <= length f ->
  exists more rest,
    pack text = [] :: more
    /\ w_trace (fst (handle_play text style context store w))
       = w_trace w
         ++ Log INFO (lit "Playing text: " ++ text ++ lit " ("
                      ++ style_format style ++ lit ")")
         :: PlayMedia context
              (SsmlSource (ssml_head style (w_call w) ++ [] ++ ssml_tail))
         :: rest.
Proof.
  intros Hs Hl.
  assert (Hp : exists more, pack text = [] :: more).
  { rewrite pack_unfold, Hs, pack_loop_cons.
    rewrite pack_step_flush by (simpl; lia).
    destruct (pack_loop_prefix fs ([] ++ [strip []]) f) as [more Hm].
    rewrite Hm. destruct (truthy _); eexists; reflexivity. }
  destruct Hp as [more Hp]. exists more.
  destruct (handle_play_first text style context store w [] more Hp)
    as [rest Hr].
  exists rest. split; [exact Hp|]. rewrite Hr.
  destruct (store_fst text style store w) as (_ & Hlang & Htrace).
  cbn [after_play_chunk w_trace]. rewrite Htrace.
  rewrite (synthesis_lang style _ (w_call w) [] Hlang).
  unfold synthesis. rewrite ssml_template_strip.
  rewrite <- !app_assoc. reflexivity.
Qed.

(** C10.  A text that is not empty and holds nothing but marks [!], [?]
    and [;], with or without one dot that ends it, yields no fragment even
    with [include_last], so that [handle_play] has no chunk: it returns
    without a request to the client, and without any event at all. *)
Theorem handle_play_only_terminators (text : str)
    (style : MessageStyleEnum) (context : option str) (store : bool)
    (w : World) :
  text <> [] -> only_terminators text = true ->
  tts_sentence_split text true = []
  /\ pack text = []
  /\ snd (handle_play text style context store w) = Returned tt
  /\ w_trace (fst (handle_play text style context store w)) = w_trace w
  /\ w_client (fst (handle_play text style context store w)) = w_client w.
Proof.
  intros _ H.
  assert (Hs : tts_sentence_split text true = []).
  { rewrite tts_sentence_split_join. apply only_terminators_split, H. }
  assert (Hp : pack text = []).
  { rewrite pack_unfold, Hs. reflexivity. }
  destruct (store_fst text style store w) as (Hclient & _ & Htrace).
  rewrite handle_play_run, Hp. cbn [for_each]. unfold ret at 1 3 5.
  cbn [fst snd]. auto.
Qed.

(** * Further properties *)

(** ** The sentence splitter *)

(** The scan of [re_split_from], as an induction principle: the end of
    the text, a match, or one more character of the current text. *)
Lemma re_split_from_ind (P : str -> str -> list str -> Prop) :
  (forall cur, P cur [] [cur]) ->
  (forall cur d rest,
      is_delimiter d = true ->
      P [] rest (re_split_from [] rest) ->
      P cur (d ++ rest) (cur :: d :: re_split_from [] rest)) ->
  (forall cur c rest,
      P (cur ++ [c]) rest (re_split_from (cur ++ [c]) rest) ->
      P cur (c :: rest) (re_split_from (cur ++ [c]) rest)) ->
  forall s cur, P cur s (re_split_from cur s).
Proof.
  intros Hend Hmatch Hskip s.
  remember (length s) as n eqn:Hn.
  revert s Hn. induction n as [n IH] using lt_wf_ind. intros s Hn cur.
  destruct s as [|c rest]; [apply Hend|].
  assert (IHrest : forall cur', P cur' rest (re_split_from cur' rest)).
  { intros cur'. apply (IH (length rest)); [subst; simpl; lia | reflexivity]. }
  cbn [re_split_from].
  destruct (N.eqb c dot) eqn:Ec.
  - apply N.eqb_eq in Ec. subst c.
    destruct rest as [|c2 rest2].
    + apply (Hmatch cur [dot] []); [reflexivity | apply Hend].
    + destruct (N.eqb c2 space) eqn:E2.
      * apply N.eqb_eq in E2. subst c2.
        apply (Hmatch cur [dot; space] rest2); [reflexivity|].
        apply (IH (length rest2)); [subst; simpl; lia | reflexivity].
      * destruct (N.eqb c2 newline && negb (truthy rest2)).
        -- apply (Hmatch cur [dot] (c2 :: rest2)); [reflexivity|].
           apply IHrest.
        -- apply Hskip, IHrest.
  - destruct (is_mark c) eqn:Em.
    + apply (Hmatch cur [c] rest); [|apply IHrest].
      cbn [is_delimiter]. rewrite Em. apply orb_true_r.
    + apply Hskip, IHrest.
Qed.

Lemma re_split_from_alternating (s cur : str) :
  alternating (re_split_from cur s).
Proof.
  apply (re_split_from_ind (fun _ _ l => alternating l)).
  - intros c. exact I.
  - intros c d rest Hd H. split; assumption.
  - intros c x rest H. exact H.
Qed.

Lemma delimiter_without_spaces (d : str) :
  is_delimiter d = true -> without_spaces d <> [].
Proof.
  destruct d as [|c [|c2 [|c3 d]]]; cbn [is_delimiter]; try discriminate.
  - intros H. apply orb_prop in H as [H|H].
    + apply N.eqb_eq in H. subst c. discriminate.
    + unfold is_mark in H.
      repeat (apply orb_prop in H as [H|H]);
        apply N.eqb_eq in H; subst c; discriminate.
  - intros H. apply andb_prop in H as [H _].
    apply N.eqb_eq in H. subst c. discriminate.
Qed.

Lemma join_pairs_length (include_last : bool) (splits : list str) :
  length (concat (join_pairs include_last splits))
  <= length (concat splits).
Proof.
  induction splits as [|last|split delimiter rest IH] using list_pair_ind.
  - simpl. lia.
  - cbn [join_pairs]. destruct last; simpl; [lia|].
    destruct include_last; simpl; rewrite ?app_nil_r; lia.
  - cbn [join_pairs concat]. rewrite !length_app.
    destruct split; cbn [truthy negb concat]; rewrite ?length_app;
      simpl length; lia.
Qed.

Lemma last_cons2 (A : Type) (x y : A) (l : list A) (d : A) :
  l <> [] -> last (x :: y :: l) d = last l d.
Proof. destruct l; [congruence | reflexivity]. Qed.

Lemma alternating_not_nil (l : list str) : alternating l -> l <> [].
Proof. destruct l; [contradiction | discriminate]. Qed.

Lemma join_pairs_include_last (splits : list str) :
  alternating splits ->
  join_pairs true splits
  = join_pairs false splits
    ++ (if truthy (last splits []) then [last splits []] else []).
Proof.
  induction splits as [|last|split delimiter rest IH] using list_pair_ind;
    intros H.
  - contradiction.
  - destruct last; reflexivity.
  - destruct H as [_ H].
    rewrite last_cons2 by (apply alternating_not_nil, H).
    cbn [join_pairs]. rewrite (IH H).
    destruct (negb (truthy split)); reflexivity.
Qed.

Lemma join_pairs_terminated (splits : list str) :
  alternating splits ->
  Forall
    (fun f => exists seg d,
         f = seg ++ d /\ truthy seg = true /\ is_delimiter d = true)
    (join_pairs false splits).
Proof.
  induction splits as [|last|split delimiter rest IH] using list_pair_ind;
    intros H.
  - contradiction.
  - cbn [join_pairs]. destruct (negb (truthy last)); constructor.
  - destruct H as [Hd H]. cbn [join_pairs].
    destruct (truthy split) eqn:Es; cbn [negb]; [|auto].
    constructor; [|auto]. exists split, delimiter. auto.
Qed.

(** A text that ends with a delimiter is split into a list that ends
    with the empty text. *)
Lemma re_split_from_ends (d : str) :
  is_delimiter d = true ->
  forall s cur, last (re_split_from cur (s ++ d)) [] = [].
Proof.
  intros Hd s.
  assert (Hbase : forall cur, last (re_split_from cur d) [] = []).
  { intros cur.
    destruct d as [|c [|c2 [|c3 d]]]; cbn [is_delimiter] in Hd;
      try discriminate.
    - cbn [re_split_from]. destruct (N.eqb c dot); [reflexivity|].
      cbn [orb] in Hd. rewrite Hd. reflexivity.
    - apply andb_prop in Hd as [H1 H2]. cbn [re_split_from].
      rewrite H1, H2. reflexivity. }
  assert (Hhead : exists c d', d = c :: d' /\ N.eqb c space = false
                               /\ N.eqb c newline = false).
  { destruct d as [|c [|c2 [|c3 d]]]; cbn [is_delimiter] in Hd;
      try discriminate.
    - exists c, []. split; [reflexivity|].
      apply orb_prop in Hd as [H|H].
      + apply N.eqb_eq in H. subst c. split; reflexivity.
      + unfold is_mark in H.
        repeat (apply orb_prop in H as [H|H]);
          apply N.eqb_eq in H; subst c; split; reflexivity.
    - exists c, [c2]. split; [reflexivity|].
      apply andb_prop in Hd as [H _]. apply N.eqb_eq in H. subst c.
      split; reflexivity. }
  remember (length s) as n eqn:Hn.
  revert s Hn. induction n as [n IH] using lt_wf_ind. intros s Hn cur.
  destruct s as [|c s']; [apply Hbase|].
  assert (IHs : forall cur', last (re_split_from cur' (s' ++ d)) [] = []).
  { intros cur'. apply (IH (length s')); [subst; simpl; lia | reflexivity]. }
  assert (Hnn : forall t cur', re_split_from cur' t <> []).
  { intros t cur'. apply alternating_not_nil, re_split_from_alternating. }
  cbn [app re_split_from].
  destruct (N.eqb c dot) eqn:Ec.
  - destruct s' as [|c2 s''].
    + destruct Hhead as (h & d' & -> & Hsp & Hnl). cbn [app].
      rewrite Hsp, Hnl. cbn [andb]. apply (IHs (cur ++ [c])).
    + cbn [app]. destruct (N.eqb c2 space).
      * rewrite last_cons2 by apply Hnn.
        apply (IH (length s'')); [subst; simpl; lia | reflexivity].
      * assert (Ht : truthy (s'' ++ d) = true).
        { destruct Hhead as (h & d' & -> & _). destruct s''; reflexivity. }
        rewrite Ht. cbn [negb]. rewrite andb_false_r.
        apply (IHs (cur ++ [c])).
  - destruct (is_mark c).
    + rewrite last_cons2 by apply Hnn. apply IHs.
    + apply IHs.
Qed.

Lemma re_split_from_plain (text : str) :
  Forall (fun c => c <> dot /\ is_mark c = false) text ->
  forall cur, re_split_from cur text = [cur ++ text].
Proof.
  induction 1 as [|c rest [Hd Hm] _ IH]; intros cur.
  - simpl. rewrite app_nil_r. reflexivity.
  - cbn [re_split_from]. apply N.eqb_neq in Hd. rewrite Hd, Hm, IH.
    rewrite <- app_assoc. reflexivity.
Qed.

(** X1.  No fragment that [tts_sentence_split] yields is the empty
    text, whatever the text and the flag. *)
Theorem tts_sentence_split_fragments_not_empty (text : str)
    (include_last : bool) :
  Forall (fun f => f <> []) (tts_sentence_split text include_last).
Proof.
  rewrite tts_sentence_split_join.
  eapply Forall_impl; [|apply join_pairs_truthy].
  intros f Hf ->. discriminate.
Qed.

(** X2.  A text without a dot and without [!], [?] or [;] is yielded
    whole, as one fragment, when [include_last] is set and the text is
    not empty; nothing is yielded otherwise. *)
Theorem tts_sentence_split_no_punctuation (text : str) :
  Forall (fun c => c <> dot /\ is_mark c = false) text ->
  tts_sentence_split text true = (if truthy text then [text] else [])
  /\ tts_sentence_split text false = [].
Proof.
  intros H. rewrite !tts_sentence_split_join. unfold re_split.
  rewrite (re_split_from_plain text H []). cbn [app join_pairs].
  destruct (truthy text); split; reflexivity.
Qed.

(** The scan again, with what a step that matches nothing knows: the
    character goes to the current text, whatever that text is. *)
Lemma re_split_from_ind_skip (P : str -> str -> list str -> Prop) :
  (forall cur, P cur [] [cur]) ->
  (forall cur d rest,
      is_delimiter d = true ->
      P [] rest (re_split_from [] rest) ->
      P cur (d ++ rest) (cur :: d :: re_split_from [] rest)) ->
  (forall cur c rest,
      (forall cur', re_split_from cur' (c :: rest)
                    = re_split_from (cur' ++ [c]) rest) ->
      P (cur ++ [c]) rest (re_split_from (cur ++ [c]) rest) ->
      P cur (c :: rest) (re_split_from (cur ++ [c]) rest)) ->
  forall s cur, P cur s (re_split_from cur s).
Proof.
  intros Hend Hmatch Hskip s.
  remember (length s) as n eqn:Hn.
  revert s Hn. induction n as [n IH] using lt_wf_ind. intros s Hn cur.
  destruct s as [|c rest]; [apply Hend|].
  assert (IHrest : forall cur', P cur' rest (re_split_from cur' rest)).
  { intros cur'. apply (IH (length rest)); [subst; simpl; lia | reflexivity]. }
  destruct (N.eqb c dot) eqn:Ec.
  - destruct rest as [|c2 rest2].
    + cbn [re_split_from]. rewrite Ec. apply N.eqb_eq in Ec. subst c.
      apply (Hmatch cur [dot] []); [reflexivity | apply Hend].
    + destruct (N.eqb c2 space) eqn:E2.
      * cbn [re_split_from]. rewrite Ec, E2.
        apply N.eqb_eq in Ec, E2. subst c c2.
        apply (Hmatch cur [dot; space] rest2); [reflexivity|].
        apply (IH (length rest2)); [subst; simpl; lia | reflexivity].
      * destruct (N.eqb c2 newline && negb (truthy rest2)) eqn:E3.
        -- cbn [re_split_from]. rewrite Ec, E2, E3.
           apply N.eqb_eq in Ec. subst c.
           apply (Hmatch cur [dot] (c2 :: rest2)); [reflexivity|].
           apply IHrest.
        -- assert (Hs : forall cur',
                     re_split_from cur' (c :: c2 :: rest2)
                     = re_split_from (cur' ++ [c]) (c2 :: rest2)).
           { intros cur'. cbn [re_split_from]. rewrite Ec, E2, E3.
             reflexivity. }
           rewrite Hs. apply Hskip; [exact Hs | apply IHrest].
  - destruct (is_mark c) eqn:Em.
    + cbn [re_split_from]. rewrite Ec, Em.
      apply (Hmatch cur [c] rest); [|apply IHrest].
      cbn [is_delimiter]. rewrite Em. apply orb_true_r.
    + assert (Hs : forall cur',
                 re_split_from cur' (c :: rest)
                 = re_split_from (cur' ++ [c]) rest).
      { intros cur'. cbn [re_split_from]. rewrite Ec, Em. reflexivity. }
      rewrite Hs. apply Hskip; [exact Hs | apply IHrest].
Qed.

(** The last text of the split holds no match of the pattern. *)
Lemma re_split_from_last_plain (s cur : str) :
  (forall cur0, re_split_from cur0 (cur ++ s)
                = re_split_from (cur0 ++ cur) s) ->
  re_split (last (re_split_from cur s) [])
  = [last (re_split_from cur s) []].
Proof.
  apply (re_split_from_ind_skip
           (fun cur s l =>
              (forall cur0, re_split_from cur0 (cur ++ s)
                            = re_split_from (cur0 ++ cur) s) ->
              re_split (last l []) = [last l []])).
  - intros c Hinv. cbn [last]. unfold re_split.
    specialize (Hinv []). rewrite app_nil_r in Hinv. exact Hinv.
  - intros c d rest _ IH _.
    rewrite last_cons2
      by (apply alternating_not_nil, re_split_from_alternating).
    apply IH. intros cur0. rewrite app_nil_r. reflexivity.
  - intros c x rest Hs IH Hinv. apply IH. intros cur0.
    rewrite <- app_assoc. cbn [app]. rewrite Hinv, Hs, <- app_assoc.
    reflexivity.
Qed.

Lemma concat_removelast (l : list str) :
  l <> [] -> concat l = concat (removelast l) ++ last l [].
Proof.
  intros H. rewrite (app_removelast_last [] H) at 1.
  rewrite concat_app. simpl. rewrite app_nil_r. reflexivity.
Qed.

(** X3.  With [include_last] the generator yields what it yields without
    it, and then at most one fragment more: the last text of the split,
    when it is not empty.  This text is the end of the text, after what
    comes before it in the split, and it holds no match of the
    pattern. *)
Theorem tts_sentence_split_include_last (text : str) :
  tts_sentence_split text true
  = tts_sentence_split text false
    ++ (if truthy (last (re_split text) [])
        then [last (re_split text) []] else [])
  /\ text = concat (removelast (re_split text)) ++ last (re_split text) []
  /\ re_split (last (re_split text) []) = [last (re_split text) []].
Proof.
  pose proof (re_split_from_alternating text []) as Ha.
  fold (re_split text) in Ha. split; [|split].
  - rewrite !tts_sentence_split_join. apply join_pairs_include_last, Ha.
  - rewrite <- concat_removelast by (apply alternating_not_nil, Ha).
    symmetry. apply re_split_concat.
  - apply (re_split_from_last_plain text []). intros cur0.
    rewrite app_nil_r. reflexivity.
Qed.

(** X4.  Without [include_last], every fragment is a text that is not
    empty followed by the delimiter that ends it: a dot and a space, a
    dot, or one of [!], [?], [;]. *)
Theorem tts_sentence_split_terminated (text : str) :
  Forall
    (fun f => exists seg d,
         f = seg ++ d /\ seg <> [] /\ is_delimiter d = true)
    (tts_sentence_split text false).
Proof.
  rewrite tts_sentence_split_join.
  eapply Forall_impl;
    [|apply join_pairs_terminated, (re_split_from_alternating text [])].
  intros f (seg & d & Hf & Hs & Hd). exists seg, d.
  split; [exact Hf | split; [|exact Hd]]. intros ->. discriminate.
Qed.

(** X5.  Where no match of the pattern comes right after another match or
    at the start of the text, the fragments yielded with [include_last],
    put together, are the text. *)
Theorem tts_sentence_split_round_trip (text : str) :
  no_empty_segment text = true ->
  concat (tts_sentence_split text true) = text.
Proof. apply tts_sentence_split_concat. Qed.

(** X6.  For a text that ends with a delimiter, [include_last] changes
    nothing. *)
Theorem tts_sentence_split_ends_with_delimiter (text d : str) :
  is_delimiter d = true ->
  tts_sentence_split (text ++ d) true = tts_sentence_split (text ++ d) false.
Proof.
  intros Hd. rewrite !tts_sentence_split_join.
  rewrite join_pairs_include_last
    by apply (re_split_from_alternating (text ++ d) []).
  unfold re_split. rewrite (re_split_from_ends d Hd text []).
  apply app_nil_r.
Qed.

(** ** The packing step *)

(** X8.  A text shorter than 400 characters makes one chunk, all its
    fragments put together, and no chunk when it has no fragment. *)
Theorem pack_short_text (text : str) :
  length text < 400 ->
  pack text
  = match tts_sentence_split text true with
    | [] => []
    | frags => [concat frags]
    end.
Proof.
  intros Hlen.
  assert (Hb : length (concat (tts_sentence_split text true)) < 400).
  { rewrite tts_sentence_split_join.
    pose proof (join_pairs_length true (re_split text)) as H.
    rewrite re_split_concat in H. lia. }
  pose proof (tts_sentence_split_join text true) as Hj.
  pose proof (join_pairs_truthy true (re_split text)) as Ht.
  rewrite <- Hj in Ht.
  rewrite pack_unfold, pack_loop_short by (simpl; exact Hb).
  cbn [fst snd app].
  destruct (tts_sentence_split text true) as [|f fs]; [reflexivity|].
  inversion Ht as [|? ? Hf _]; subst.
  destruct f; [discriminate | reflexivity].
Qed.

Lemma pack_loop_bounded (frags : list str) :
  forall chunks chunk,
    Forall (fun f => length f <= 400) frags ->
    Forall (fun c => length c <= 400) chunks -> length chunk <= 400 ->
    Forall (fun c => length c <= 400) (fst (pack_loop (chunks, chunk) frags))
    /\ length (snd (pack_loop (chunks, chunk) frags)) <= 400.
Proof.
  induction frags as [|f frags IH]; intros chunks chunk Hf Hc Hk.
  - split; assumption.
  - inversion Hf; subst. rewrite pack_loop_cons.
    destruct (Nat.leb_spec 400 (length chunk + length f)) as [Hge|Hlt].
    + rewrite pack_step_flush by exact Hge. apply IH; auto.
      apply Forall_app. split; [exact Hc|]. constructor; [|constructor].
      pose proof (strip_length chunk). lia.
    + rewrite pack_step_keep by exact Hlt. apply IH; auto.
      rewrite length_app. lia.
Qed.

Lemma pack_chunks_le_400 (text : str) :
  Forall (fun f => length f <= 400) (tts_sentence_split text true) ->
  Forall (fun c => length c <= 400) (pack text).
Proof.
  intros H.
  destruct (pack_loop_bounded (tts_sentence_split text true) [] [] H)
    as [Hc Hk]; [constructor | simpl; lia |].
  rewrite pack_unfold.
  destruct (truthy _); [|exact Hc].
  apply Forall_app. split; [exact Hc|]. constructor; [exact Hk | constructor].
Qed.

(** A text with a character that is not whitespace stays a text when
    stripped. *)
Lemma strip_not_nil (s : str) : without_spaces s <> [] -> strip s <> [].
Proof.
  intros H Hs. apply H. rewrite <- without_spaces_strip, Hs. reflexivity.
Qed.

(** Every fragment but the last holds a delimiter, which is not
    whitespace. *)
Lemma tts_sentence_split_removelast (text : str) :
  Forall (fun f => without_spaces f <> [])
    (removelast (tts_sentence_split text true)).
Proof.
  pose proof (re_split_from_alternating text []) as Ha.
  fold (re_split text) in Ha.
  assert (Hf : Forall (fun f => without_spaces f <> [])
                 (join_pairs false (re_split text))).
  { eapply Forall_impl; [|apply join_pairs_terminated, Ha].
    intros f (seg & d & -> & _ & Hd). rewrite without_spaces_app.
    intros H. apply app_eq_nil in H as [_ H].
    exact (delimiter_without_spaces d Hd H). }
  rewrite tts_sentence_split_join, join_pairs_include_last by exact Ha.
  destruct (truthy (last (re_split text) [])).
  - rewrite removelast_last. exact Hf.
  - rewrite app_nil_r. apply Forall_removelast, Hf.
Qed.

Lemma pack_loop_flushes_not_empty (frags : list str) :
  forall chunks chunk,
    truthy chunk = true ->
    (frags <> [] -> without_spaces chunk <> []) ->
    Forall (fun f => truthy f = true) frags ->
    Forall (fun f => without_spaces f <> []) (removelast frags) ->
    exists more,
      fst (pack_loop (chunks, chunk) frags) = chunks ++ more
      /\ Forall (fun c => c <> []) more
      /\ truthy (snd (pack_loop (chunks, chunk) frags)) = true.
Proof.
  induction frags as [|f frags IH]; intros chunks chunk Ht Hink Hall Hrl.
  - exists []. simpl. rewrite app_nil_r. auto.
  - inversion Hall as [|? ? Hf Hall']; subst.
    assert (Hchunk : without_spaces chunk <> []) by (apply Hink; discriminate).
    assert (Hnext : frags <> [] -> without_spaces f <> []).
    { intros Hne. destruct frags; [congruence|].
      inversion Hrl; assumption. }
    assert (Hrl' : Forall (fun f => without_spaces f <> [])
                     (removelast frags)).
    { destruct frags; [constructor|]. inversion Hrl; assumption. }
    rewrite pack_loop_cons.
    destruct (Nat.leb_spec 400 (length chunk + length f)) as [Hge|Hlt].
    + rewrite pack_step_flush by exact Hge.
      destruct (IH (chunks ++ [strip chunk]) f Hf Hnext Hall' Hrl')
        as (more & Hm & Hne & Hs).
      exists (strip chunk :: more). split; [|split].
      * rewrite Hm, <- app_assoc. reflexivity.
      * constructor; [apply strip_not_nil, Hchunk | exact Hne].
      * exact Hs.
    + rewrite pack_step_keep by exact Hlt.
      apply IH; auto.
      * destruct chunk; [discriminate | reflexivity].
      * intros _. rewrite without_spaces_app. intros H.
        apply app_eq_nil in H as [H _]. exact (Hchunk H).
Qed.

(** X10.  The empty text is a chunk at one place only: ahead of the
    others, when the first fragment has 400 characters or more.  With a
    fragment or more there is a chunk that is not empty, and with no
    fragment there is no chunk. *)
Theorem pack_empty_chunk_first_only (text : str) :
  match tts_sentence_split text true with
  | [] => pack text = []
  | f :: _ =>
      exists more,
        pack text = (if 400 <=? length f then [[]] else []) ++ more
        /\ more <> []
        /\ Forall (fun c => c <> []) more
  end.
Proof.
  pose proof (tts_sentence_split_removelast text) as Hrl.
  pose proof (join_pairs_truthy true (re_split text)) as Hall.
  rewrite <- tts_sentence_split_join in Hall.
  rewrite pack_unfold.
  destruct (tts_sentence_split text true) as [|f fs]; [reflexivity|].
  inversion Hall as [|? ? Hf Hall']; subst.
  assert (Hnext : fs <> [] -> without_spaces f <> []).
  { intros Hne. destruct fs; [congruence|]. inversion Hrl; assumption. }
  assert (Hrl' : Forall (fun f => without_spaces f <> []) (removelast fs)).
  { destruct fs; [constructor|]. inversion Hrl; assumption. }
  rewrite pack_loop_cons.
  assert (Hstep : pack_step ([], []) f
                  = (if 400 <=? length f then [[]] else [], f)).
  { unfold pack_step. cbn [length Nat.add app].
    destruct (400 <=? length f); reflexivity. }
  rewrite Hstep.
  destruct (pack_loop_flushes_not_empty fs
              (if 400 <=? length f then [[]] else []) f
              Hf Hnext Hall' Hrl') as (more & Hm & Hne & Hs).
  set (r := pack_loop _ fs).
  change (fst r = (if 400 <=? length f then [[]] else []) ++ more) in Hm.
  change (truthy (snd r) = true) in Hs.
  rewrite Hs, Hm. exists (more ++ [snd r]).
  split; [|split].
  - rewrite app_assoc. reflexivity.
  - intros H. apply app_eq_nil in H as [_ H]. discriminate.
  - apply Forall_app. split; [exact Hne|]. constructor; [|constructor].
    intros H. rewrite H in Hs. discriminate.
Qed.

(** ** Playback *)

Lemma recognized_app (t1 t2 : list Event) :
  recognized (t1 ++ t2) = recognized t1 ++ recognized t2.
Proof.
  induction t1 as [|ev t1 IH]; [reflexivity|].
  destruct ev; simpl; rewrite IH; reflexivity.
Qed.

Lemma warnings_app (t1 t2 : list Event) :
  warnings (t1 ++ t2) = warnings t1 ++ warnings t2.
Proof.
  induction t1 as [|ev t1 IH]; [reflexivity|].
  destruct ev as [[] m| |]; simpl; rewrite IH; reflexivity.
Qed.

(** What the playback loop leaves alone, whatever its outcome: the call
    and the recognition requests. *)
Lemma for_each_play_frame (text : str) (style : MessageStyleEnum)
    (context : option str) (chunks : list str) :
  forall w,
    w_call (fst (for_each chunks (play_chunk text style context) w))
    = w_call w
    /\ recognized
         (w_trace (fst (for_each chunks (play_chunk text style context) w)))
       = recognized (w_trace w).
Proof.
  induction chunks as [|c chunks IH]; intros w; [split; reflexivity|].
  cbn [for_each]. unfold bind. rewrite play_chunk_run.
  assert (Hone :
    recognized (w_trace (after_play_chunk text style context c w))
    = recognized (w_trace w)).
  { cbn [after_play_chunk w_trace]. rewrite !recognized_app.
    destruct (400 <? length c); simpl; rewrite app_nil_r; reflexivity. }
  destruct (snd (sdk_play_media (w_client w) context
                   (synthesis style (w_call w) c))).
  - split; [reflexivity | exact Hone].
  - destruct (IH (after_play_chunk text style context c w)) as [Hc Hr].
    rewrite Hc, Hr. split; [reflexivity | exact Hone].
Qed.

Lemma handle_play_frame (text : str) (style : MessageStyleEnum)
    (context : option str) (store : bool) (w : World) :
  w_call (fst (handle_play text style context store w))
  = w_call (fst ((if store then store_text text style else ret tt) w))
  /\ recognized (w_trace (fst (handle_play text style context store w)))
     = recognized (w_trace w).
Proof.
  rewrite handle_play_run.
  destruct (store_fst text style store w) as (_ & _ & Htrace).
  destruct (for_each_play_frame text style context (pack text)
              (fst ((if store then store_text text style else ret tt) w)))
    as [Hc Hr].
  rewrite Htrace in Hr.
  destruct (for_each (pack text) (play_chunk text style context) _)
    as [w' [[]|e]]; cbn [fst] in *; [auto|].
  destruct (benign e); cbn [fst with_event w_call w_trace]; [|auto].
  rewrite recognized_app, Hr. simpl. rewrite app_nil_r. auto.
Qed.

Lemma for_each_play_succeeds (text : str) (style : MessageStyleEnum)
    (context : option str) (chunks : list str) :
  (forall st ctx src, snd (sdk_play_media st ctx src) = None) ->
  forall w,
    snd (for_each chunks (play_chunk text style context) w) = Returned tt.
Proof.
  intros Hok. induction chunks as [|c chunks IH]; intros w; [reflexivity|].
  cbn [for_each]. unfold bind. rewrite play_chunk_run, Hok. apply IH.
Qed.

Lemma handle_play_keeps_lang (text : str) (style : MessageStyleEnum)
    (context : option str) (store : bool) (w : World) :
  lang (w_call (fst (handle_play text style context store w)))
  = lang (w_call w)
  /\ phone_number (w_call (fst (handle_play text style context store w)))
     = phone_number (w_call w).
Proof.
  destruct (handle_play_frame text style context store w) as [Hc _].
  rewrite Hc. destruct (store_run text style store w) as [ms Hs].
  rewrite Hs. split; reflexivity.
Qed.

(** X11.  With a client that answers every [play_media] with success,
    [handle_play] returns, and it has sent one request for each chunk of
    the text, in their order. *)
Theorem handle_play_all_chunks (text : str) (style : MessageStyleEnum)
    (context : option str) (store : bool) (w : World) :
  (forall st ctx src, snd (sdk_play_media st ctx src) = None) ->
  snd (handle_play text style context store w) = Returned tt
  /\ played (w_trace (fst (handle_play text style context store w)))
     = played (w_trace w)
       ++ map (fun c => (context, synthesis style (w_call w) c)) (pack text).
Proof.
  intros Hok. rewrite handle_play_run.
  destruct (store_fst text style store w) as (_ & Hlang & Htrace).
  set (w0 := fst ((if store then store_text text style else ret tt) w)) in *.
  pose proof (for_each_play_succeeds text style context (pack text) Hok w0)
    as Hs.
  destruct (for_each (pack text) (play_chunk text style context) w0)
    as [w' r] eqn:Hrun.
  cbn [snd] in Hs. subst r. cbn [fst snd]. split; [reflexivity|].
  apply for_each_play_returned in Hrun as [_ Hp].
  rewrite Hp, Htrace. f_equal. apply map_ext. intros c.
  rewrite (synthesis_lang style _ (w_call w) c Hlang). reflexivity.
Qed.

(** X12.  [handle_play] never changes the language and the phone number
    of the call, and without [store] it leaves the messages as they are,
    whatever the client answers. *)
Theorem handle_play_keeps_call (text : str) (style : MessageStyleEnum)
    (context : option str) (store : bool) (w : World) :
  lang (w_call (fst (handle_play text style context store w)))
  = lang (w_call w)
  /\ phone_number (w_call (fst (handle_play text style context store w)))
     = phone_number (w_call w)
  /\ w_call (fst (handle_play text style context false w)) = w_call w.
Proof.
  destruct (handle_play_frame text style context store w) as [Hc _].
  destruct (handle_play_frame text style context false w) as [Hf _].
  rewrite Hc, Hf. destruct (store_run text style store w) as [ms Hs].
  rewrite Hs. split; [reflexivity | split; reflexivity].
Qed.

(** The messages after the [if store:] block: one message more, or the
    last message with the text added to it. *)
Lemma store_text_messages (text : str) (style : MessageStyleEnum)
    (w : World) :
  exists earlier m,
    messages (w_call (fst (store_text text style w))) = earlier ++ [m]
    /\ persona m = ASSISTANT
    /\ ((earlier = messages (w_call w)
         /\ m = {| content := text; persona := ASSISTANT; style := style |}
         /\ (forall e0 m0, messages (w_call w) = e0 ++ [m0] ->
                           persona m0 <> ASSISTANT))
        \/ (exists m0,
               messages (w_call w) = earlier ++ [m0]
               /\ persona m0 = ASSISTANT
               /\ m = content_append m0 (lit " " ++ text))).
Proof.
  unfold store_text, bind, get_call, set_messages.
  destruct (rev (messages (w_call w))) as [|m0 before] eqn:Hrev.
  - cbn [fst w_call messages]. eexists _, _. split; [reflexivity|].
    split; [reflexivity|]. left. split; [reflexivity|].
    split; [reflexivity|]. intros e0 m1 H.
    apply (f_equal (@rev _)) in H. rewrite Hrev, rev_app_distr in H.
    discriminate.
  - assert (Hm : messages (w_call w) = rev before ++ [m0]).
    { rewrite <- (rev_involutive (messages (w_call w))), Hrev.
      reflexivity. }
    destruct (persona_eq_dec (persona m0) ASSISTANT) as [Ha|Hn];
      cbn [fst w_call messages].
    + exists (rev before), (content_append m0 (lit " " ++ text)).
      split; [reflexivity|]. split; [exact Ha|]. right.
      exists m0. auto.
    + eexists _, _. split; [reflexivity|]. split; [reflexivity|].
      left. split; [reflexivity|]. split; [reflexivity|].
      intros e0 m1 H. rewrite Hm in H.
      apply app_inj_tail in H as [_ H]. subst m1. exact Hn.
Qed.

(** X13.  With [store], and whatever the client answers, the messages
    after [handle_play] end with a message of the assistant: a new
    message with the text and the style, after the messages there were,
    when the last of them was not of the assistant; otherwise the last
    message itself, with a space and the text added to its content. *)
Theorem handle_play_stores_text (text : str) (style : MessageStyleEnum)
    (context : option str) (w : World) :
  exists earlier m,
    messages (w_call (fst (handle_play text style context true w)))
    = earlier ++ [m]
    /\ persona m = ASSISTANT
    /\ ((earlier = messages (w_call w)
         /\ m = {| content := text; persona := ASSISTANT; style := style |}
         /\ (forall e0 m0, messages (w_call w) = e0 ++ [m0] ->
                           persona m0 <> ASSISTANT))
        \/ (exists m0,
               messages (w_call w) = earlier ++ [m0]
               /\ persona m0 = ASSISTANT
               /\ m = content_append m0 (lit " " ++ text))).
Proof.
  destruct (handle_play_frame text style context true w) as [Hc _].
  rewrite Hc. apply store_text_messages.
Qed.

(** X14.  Two texts played one after the other with [store] end in one
    message: the second text is added, after a space, to the message
    that holds the first, and its style is not kept. *)
Theorem handle_play_twice_one_message (t1 t2 : str)
    (s1 s2 : MessageStyleEnum) (c1 c2 : option str) (w : World) :
  exists earlier m,
    messages (w_call (fst (handle_play t1 s1 c1 true w))) = earlier ++ [m]
    /\ messages
         (w_call
            (fst (handle_play t2 s2 c2 true
                    (fst (handle_play t1 s1 c1 true w)))))
       = earlier ++ [content_append m (lit " " ++ t2)].
Proof.
  set (w1 := fst (handle_play t1 s1 c1 true w)).
  destruct (handle_play_frame t1 s1 c1 true w) as [Hc1 _].
  destruct (store_text_messages t1 s1 w) as (earlier & m & Hm & Hp & _).
  fold w1 in Hc1. rewrite <- Hc1 in Hm.
  exists earlier, m. split; [exact Hm|].
  destruct (handle_play_frame t2 s2 c2 true w1) as [Hc2 _].
  rewrite Hc2.
  destruct (store_text_messages t2 s2 w1)
    as (e2 & m2 & Hm2 & _ & [(_ & _ & Hno) | (m0 & Hm0 & _ & Hm2')]).
  - exfalso. exact (Hno earlier m Hm Hp).
  - rewrite Hm in Hm0. apply app_inj_tail in Hm0 as [He H0].
    subst e2 m0 m2. exact Hm2.
Qed.

(** X15.  [handle_media] sends one request, for the file, and its
    outcome follows the answer: it returns on success, on a resource that
    is not found and on an HTTP error whose message in lower case holds
    "call already terminated", after a debug record in the last two
    cases, and it raises any other exception as it is. *)
Theorem handle_media_outcome (sound_url : str) (context : option str)
    (w : World) :
  let w' :=
    {| w_client :=
         fst (sdk_play_media (w_client w) context (FileSource sound_url));
       w_call := w_call w;
       w_trace := w_trace w ++ [PlayMedia context (FileSource sound_url)] |}
  in
  handle_media sound_url context w
  = match
      snd (sdk_play_media (w_client w) context (FileSource sound_url))
    with
    | None => (w', Returned tt)
    | Some e =>
        if benign e
        then (with_event w' (Log DEBUG (lit "Call hung up before playing")),
              Returned tt)
        else (w', Raised e)
    end.
Proof.
  cbv zeta. unfold handle_media, try_except, play_media.
  destruct (sdk_play_media (w_client w) context (FileSource sound_url))
    as [c [[m|m|d]|]]; cbn [fst snd benign]; try reflexivity.
  destruct (contains PHRASE (lower m)); reflexivity.
Qed.

(** [_handle_recognize_media] sends one recognition request and no
    playback request, and leaves the call as it is. *)
Lemma handle_recognize_media_frame (sound_url : str) (w : World) :
  recognized (w_trace (fst (_handle_recognize_media sound_url w)))
  = recognized (w_trace w) ++ [media_args sound_url (w_call w)]
  /\ played (w_trace (fst (_handle_recognize_media sound_url w)))
     = played (w_trace w)
  /\ w_call (fst (_handle_recognize_media sound_url w)) = w_call w.
Proof.
  unfold _handle_recognize_media, bind, try_except, log, emit, get_call.
  cbn [w_call w_client w_trace]. unfold start_recognizing_media.
  fold (media_args sound_url (w_call w)).
  destruct (sdk_start_recognizing_media _ _) as [c [[m|m|d]|]];
    cbn [fst w_trace w_call raise log emit];
    try (destruct (contains PHRASE (lower m)));
    cbn [fst w_trace w_call raise log emit];
    rewrite ?recognized_app, ?played_app; simpl;
    rewrite ?app_nil_r; auto.
Qed.

Lemma handle_recognize_media_not_benign (sound_url : str) (w : World) :
  match snd (_handle_recognize_media sound_url w) with
  | Returned _ => True
  | Raised e => benign e = false
  end.
Proof.
  unfold _handle_recognize_media, bind, try_except, log, emit, get_call.
  cbn [w_call w_client w_trace]. unfold start_recognizing_media.
  destruct (sdk_start_recognizing_media _ _) as [c [[m|m|d]|]];
    cbn [snd benign raise]; auto.
  destruct (contains PHRASE (lower m)) eqn:E; cbn [snd benign raise]; auto.
Qed.

Lemma handle_play_not_benign (text : str) (style : MessageStyleEnum)
    (context : option str) (store : bool) (w : World) :
  match snd (handle_play text style context store w) with
  | Returned _ => True
  | Raised e => benign e = false
  end.
Proof.
  rewrite handle_play_run.
  destruct (for_each (pack text) (play_chunk text style context) _)
    as [w' [[]|e]]; [exact I|].
  destruct (benign e) eqn:E; cbn [snd]; auto.
Qed.

(** X16.  Without a text, or with the empty text, [handle_recognize_text]
    plays nothing and stores nothing, even with [store]: it starts the
    recognition with the "ready" sound, and that is all it sends. *)
Theorem handle_recognize_text_no_text (style : MessageStyleEnum)
    (text : option str) (store : bool) (w : World) :
  text = None \/ text = Some [] ->
  played (w_trace (fst (handle_recognize_text style text store w)))
  = played (w_trace w)
  /\ recognized (w_trace (fst (handle_recognize_text style text store w)))
     = recognized (w_trace w)
       ++ [media_args (sounds_ready CONFIG) (w_call w)]
  /\ w_call (fst (handle_recognize_text style text store w)) = w_call w.
Proof.
  intros H.
  assert (Hrun : handle_recognize_text style text store w
                 = _handle_recognize_media (sounds_ready CONFIG) w)
    by (destruct H; subst text; reflexivity).
  rewrite Hrun.
  destruct (handle_recognize_media_frame (sounds_ready CONFIG) w)
    as (Hr & Hp & Hc).
  auto.
Qed.

(** X17.  With a text, [handle_recognize_text] starts the recognition
    when [handle_play] returns, also when [handle_play] returns because
    the call hung up; when [handle_play] raises, the exception goes to
    the caller and no recognition is started. *)
Theorem handle_recognize_text_after_play (style : MessageStyleEnum)
    (c : N) (text : str) (store : bool) (w : World) :
  match snd (handle_play (c :: text) style None store w) with
  | Returned _ =>
      recognized
        (w_trace (fst (handle_recognize_text style (Some (c :: text))
                         store w)))
      = recognized (w_trace w)
        ++ [media_args (sounds_ready CONFIG) (w_call w)]
  | Raised e =>
      snd (handle_recognize_text style (Some (c :: text)) store w)
      = Raised e
      /\ recognized
           (w_trace (fst (handle_recognize_text style (Some (c :: text))
                            store w)))
         = recognized (w_trace w)
  end.
Proof.
  destruct (handle_play_frame (c :: text) style None store w) as [Hc Hr].
  destruct (handle_play_keeps_lang (c :: text) style None store w)
    as [Hl Hp].
  unfold handle_recognize_text, bind.
  destruct (handle_play (c :: text) style None store w) as [w' [[]|e]];
    cbn beta iota; cbn [fst snd] in *.
  - destruct (handle_recognize_media_frame (sounds_ready CONFIG) w')
      as (Hm & _ & _).
    rewrite Hm, Hr. unfold media_args. rewrite Hl, Hp. reflexivity.
  - split; [reflexivity | exact Hr].
Qed.

(** X18.  [handle_recognize_text] never raises a resource that is not
    found, nor an HTTP error whose message in lower case holds "call
    already terminated". *)
Theorem handle_recognize_text_not_benign (style : MessageStyleEnum)
    (text : option str) (store : bool) (w : World) :
  match snd (handle_recognize_text style text store w) with
  | Returned _ => True
  | Raised (ResourceNotFoundError _) => False
  | Raised (HttpResponseError message) =>
      contains PHRASE (lower message) = false
  | Raised (OtherException _) => True
  end.
Proof.
  assert (H : match snd (handle_recognize_text style text store w) with
              | Returned _ => True
              | Raised e => benign e = false
              end).
  { unfold handle_recognize_text, bind.
    destruct text as [[|c t]|];
      try apply handle_recognize_media_not_benign.
    pose proof (handle_play_not_benign (c :: t) style None store w) as Hp.
    destruct (handle_play (c :: t) style None store w) as [w' [[]|e]];
      cbn [snd] in *; [apply handle_recognize_media_not_benign | exact Hp]. }
  destruct (snd (handle_recognize_text style text store w)) as [[]|[m|m|d]];
    cbn [benign] in H; auto. discriminate.
Qed.

(** X9.  When no fragment has more than 400 characters, no chunk has:
    nothing is left for [_audio_from_text] to cut. *)
Theorem pack_chunks_bounded (text : str) :
  Forall (fun f => length f <= 400) (tts_sentence_split text true) ->
  Forall (fun c => length c <= 400) (pack text).
Proof. apply pack_chunks_le_400. Qed.

Lemma for_each_play_no_warning (text : str) (style : MessageStyleEnum)
    (context : option str) (chunks : list str) :
  Forall (fun c => length c <= 400) chunks ->
  forall w,
    warnings (w_trace (fst (for_each chunks (play_chunk text style context) w)))
    = warnings (w_trace w).
Proof.
  induction 1 as [|c chunks Hc _ IH]; intros w; [reflexivity|].
  cbn [for_each]. unfold bind. rewrite play_chunk_run.
  assert (Hone :
    warnings (w_trace (after_play_chunk text style context c w))
    = warnings (w_trace w)).
  { cbn [after_play_chunk w_trace]. rewrite !warnings_app.
    destruct (Nat.ltb_spec 400 (length c)); [lia|].
    simpl. rewrite app_nil_r. reflexivity. }
  destruct (snd (sdk_play_media (w_client w) context
                   (synthesis style (w_call w) c))).
  - exact Hone.
  - rewrite IH. exact Hone.
Qed.

(** X19.  When no fragment of the text has more than 400 characters,
    [handle_play] logs no warning: no request of it is cut. *)
Theorem handle_play_no_warning (text : str) (style : MessageStyleEnum)
    (context : option str) (store : bool) (w : World) :
  Forall (fun f => length f <= 400) (tts_sentence_split text true) ->
  warnings (w_trace (fst (handle_play text style context store w)))
  = warnings (w_trace w).
Proof.
  intros H. rewrite handle_play_run.
  destruct (store_fst text style store w) as (_ & _ & Htrace).
  pose proof (for_each_play_no_warning text style context (pack text)
                (pack_chunks_le_400 text H)
                (fst ((if store then store_text text style else ret tt) w)))
    as Hw.
  rewrite Htrace in Hw.
  destruct (for_each (pack text) (play_chunk text style context) _)
    as [w' [[]|e]]; cbn [fst] in *; [exact Hw|].
  destruct (benign e); cbn [fst with_event w_trace]; [|exact Hw].
  rewrite warnings_app, Hw. simpl. apply app_nil_r.
Qed.

Lemma for_each_play_prefix (text : str) (style : MessageStyleEnum)
    (context : option str) (chunks : list str) :
  forall w, exists n,
    played (w_trace (fst (for_each chunks (play_chunk text style context) w)))
    = played (w_trace w)
      ++ map (fun c => (context, synthesis style (w_call w) c))
           (firstn n chunks).
Proof.
  induction chunks as [|c chunks IH]; intros w.
  - exists 0. simpl. rewrite app_nil_r. reflexivity.
  - cbn [for_each]. unfold bind. rewrite play_chunk_run.
    destruct (snd (sdk_play_media (w_client w) context
                     (synthesis style (w_call w) c))).
    + exists 1. cbn [fst firstn map].
      apply after_play_chunk_played.
    + destruct (IH (after_play_chunk text style context c w)) as [n Hn].
      exists (S n). rewrite Hn, after_play_chunk_played.
      cbn [after_play_chunk w_call firstn map].
      rewrite <- app_assoc. reflexivity.
Qed.

(** X20.  Whatever the client answers, the requests that [handle_play]
    has sent are requests for the first chunks of the text, one each, in
    their order: no chunk is skipped, none is sent twice. *)
Theorem handle_play_requests_prefix (text : str) (style : MessageStyleEnum)
    (context : option str) (store : bool) (w : World) :
  exists n,
    played (w_trace (fst (handle_play text style context store w)))
    = played (w_trace w)
      ++ map (fun c => (context, synthesis style (w_call w) c))
           (firstn n (pack text)).
Proof.
  rewrite handle_play_run.
  destruct (store_fst text style store w) as (_ & Hlang & Htrace).
  destruct (for_each_play_prefix text style context (pack text)
              (fst ((if store then store_text text style else ret tt) w)))
    as [n Hn].
  exists n.
  assert (Hmap :
    map (fun c => (context,
                   synthesis style
                     (w_call (fst ((if store then store_text text style
                                    else ret tt) w))) c))
      (firstn n (pack text))
    = map (fun c => (context, synthesis style (w_call w) c))
        (firstn n (pack text))).
  { apply map_ext. intros c.
    rewrite (synthesis_lang style _ (w_call w) c Hlang). reflexivity. }
  rewrite Htrace, Hmap in Hn.
  destruct (for_each (pack text) (play_chunk text style context) _)
    as [w' [[]|e]]; cbn [fst] in *; [exact Hn|].
  destruct (benign e); cbn [fst with_event w_trace]; [|exact Hn].
  rewrite played_app, Hn. simpl. apply app_nil_r.
Qed.

(** ** The menu *)

(** X21.  [handle_recognize_ivr] does not split its text: it sends one
    recognition request and no playback request.  The prompt of the
    request is the document of the first 400 characters of the text, and
    a warning is logged when the text has more. *)
Theorem handle_recognize_ivr_one_request (text : str)
    (choices : list RecognitionChoice) (w : World) :
  recognized (w_trace (fst (handle_recognize_ivr text choices w)))
  = recognized (w_trace w)
    ++ [{| choices := Some choices;
           end_silence_timeout := 20;
           input_type := CHOICES;
           interrupt_prompt := Some true;
           play_prompt :=
             SsmlSource (ssml_head NONE (w_call w) ++ firstn 400 text
                         ++ ssml_tail);
           speech_language := short_code (lang (w_call w));
           target_participant := phone_number (w_call w) |}]
  /\ played (w_trace (fst (handle_recognize_ivr text choices w)))
     = played (w_trace w)
  /\ warnings (w_trace (fst (handle_recognize_ivr text choices w)))
     = warnings (w_trace w)
       ++ (if 400 <? length text then [TOO_LONG] else [])
  /\ w_call (fst (handle_recognize_ivr text choices w)) = w_call w.
Proof.
  rewrite <- (ssml_template_strip (firstn 400 text) NONE (w_call w)).
  fold (synthesis NONE (w_call w) text).
  unfold handle_recognize_ivr, bind, try_except, log, emit, get_call.
  cbn [w_call w_client w_trace]. rewrite audio_from_text_run.
  unfold start_recognizing_media.
  destruct (400 <? length text); cbn [with_event w_call w_client w_trace];
    destruct (sdk_start_recognizing_media _ _) as [c [[m|m|d]|]];
    cbn [fst w_trace w_call raise log emit];
    rewrite ?recognized_app, ?played_app, ?warnings_app; simpl;
    rewrite ?app_nil_r; auto.
Qed.

(** ** The packing step, as a greedy grouping *)

Lemma closed_at_limit_cons (a : list str) (f : str) (g : list str)
    (rest : list (list str)) :
  400 <= length (concat a) + length f ->
  closed_at_limit ((f :: g) :: rest) ->
  closed_at_limit (a :: (f :: g) :: rest).
Proof. intros H1 H2. split; assumption. Qed.

Lemma pack_loop_greedy (frags : list str) :
  forall chunks g0,
    (length g0 <= 1 \/ length (concat g0) < 400) ->
    exists groups g,
      g0 ++ frags = concat groups ++ g
      /\ fst (pack_loop (chunks, concat g0) frags)
         = chunks ++ map (fun x => strip (concat x)) groups
      /\ snd (pack_loop (chunks, concat g0) frags) = concat g
      /\ Forall (fun x => length x <= 1 \/ length (concat x) < 400)
           (groups ++ [g])
      /\ closed_at_limit (groups ++ [g])
      /\ exists tail more, groups ++ [g] = (g0 ++ tail) :: more.
Proof.
  induction frags as [|f frags IH]; intros chunks g0 H0.
  - exists [], g0. simpl. rewrite !app_nil_r.
    repeat split; auto. exists [], []. rewrite app_nil_r. reflexivity.
  - rewrite pack_loop_cons.
    destruct (Nat.leb_spec 400 (length (concat g0) + length f)) as [Hge|Hlt].
    + rewrite pack_step_flush by exact Hge.
      destruct (IH (chunks ++ [strip (concat g0)]) [f])
        as (groups & g & Hg & Hf & Hs & Hsmall & Hclosed & tail & more & Hhd).
      { left. simpl. lia. }
      cbn [concat] in Hf, Hs. rewrite app_nil_r in Hf, Hs.
      exists (g0 :: groups), g. repeat split.
      * cbn [concat]. rewrite <- app_assoc, <- Hg. reflexivity.
      * etransitivity; [exact Hf|]. rewrite <- app_assoc. reflexivity.
      * exact Hs.
      * cbn [app]. constructor; assumption.
      * cbn [app]. rewrite Hhd in *. cbn [app].
        apply closed_at_limit_cons; assumption.
      * exists [], (groups ++ [g]). rewrite app_nil_r. reflexivity.
    + rewrite pack_step_keep by exact Hlt.
      destruct (IH chunks (g0 ++ [f]))
        as (groups & g & Hg & Hf & Hs & Hsmall & Hclosed & tail & more & Hhd).
      { right. rewrite concat_app. cbn [concat].
        rewrite app_nil_r, length_app. exact Hlt. }
      rewrite concat_app in Hf, Hs. cbn [concat] in Hf, Hs.
      rewrite app_nil_r in Hf, Hs.
      exists groups, g. repeat split; auto.
      * rewrite <- Hg, <- app_assoc. reflexivity.
      * exists (f :: tail), more. rewrite Hhd, <- app_assoc. reflexivity.
Qed.

(** X7.  The packing is greedy.  The fragments fall into consecutive
    groups, one for each chunk, such that a group of two fragments or
    more has fewer than 400 characters, and such that a group is closed
    only when the first fragment of the next group would bring it to 400
    characters or more. *)
Theorem pack_greedy (text : str) :
  exists groups g,
    tts_sentence_split text true = concat groups ++ g
    /\ pack text
       = map (fun x => strip (concat x)) groups
         ++ (if truthy (concat g) then [concat g] else [])
    /\ Forall (fun x => length x <= 1 \/ length (concat x) < 400)
         (groups ++ [g])
    /\ closed_at_limit (groups ++ [g]).
Proof.
  destruct (pack_loop_greedy (tts_sentence_split text true) [] [])
    as (groups & g & Hg & Hf & Hs & Hsmall & Hclosed & _).
  { left. simpl. lia. }
  exists groups, g. split; [exact Hg|]. split; [|split; assumption].
  rewrite pack_unfold. cbn [concat] in Hf, Hs.
  set (r := pack_loop _ _) in *.
  change (fst r = [] ++ map (fun x => strip (concat x)) groups) in Hf.
  change (snd r = concat g) in Hs.
  rewrite Hf, Hs.
  destruct (truthy (concat g)); [reflexivity | symmetry; apply app_nil_r].
Qed.

(** ** The document *)

(** X22.  The document holds nothing of a text beyond its first 400
    characters: two texts with the same first 400 characters get the same
    document. *)
Theorem audio_from_text_first_400 (t1 t2 : str) (style : MessageStyleEnum)
    (call : CallModel) (w1 w2 : World) :
  firstn 400 t1 = firstn 400 t2 ->
  snd (_audio_from_text t1 style call w1)
  = snd (_audio_from_text t2 style call w2).
Proof.
  intros H. rewrite !audio_from_text_run. cbn [snd]. unfold synthesis.
  rewrite H. reflexivity.
Qed.

End CallUtils.

(** * Runs on a scripted client *)

(** The imports of the file, filled in for the runs below: two styles,
    two personas, a lower case for the ASCII letters, and a client that
    counts the requests it gets and answers the second [play_media] and
    every [start_recognizing_media] with an HTTP error. *)
Inductive DemoStyle : Type := DEMO_NONE | DEMO_CHEERFUL.

Definition demo_style_value (s : DemoStyle) : str :=
  match s with
  | DEMO_NONE => lit "none"
  | DEMO_CHEERFUL => lit "cheerful"
  end.

Inductive DemoPersona : Type := DEMO_ASSISTANT | DEMO_HUMAN.

Definition demo_persona_eq_dec (a b : DemoPersona) : {a = b} + {a <> b}.
Proof. decide equality. Defined.

Definition demo_config : Config :=
  {| public_url := lit "https://example.org";
     sounds_ready := lit "https://example.org/ready.wav" |}.

Definition ascii_lower (s : str) : str :=
  map (fun c => if ((65 <=? c) && (c <=? 90))%N then (c + 32)%N else c) s.

Definition demo_error : exn :=
  HttpResponseError (lit "Call Already Terminated.").

Definition demo_play_media (n : nat) (_ : option str) (_ : PlaySource)
    : nat * option exn :=
  (S n, if Nat.eqb n 1 then Some demo_error else None).

Definition demo_start_recognizing_media (n : nat)
    (_ : RecognizeArgs unit) : nat * option exn :=
  (S n, Some demo_error).

Definition DemoWorld : Type := World DemoStyle DemoPersona unit nat.

Definition demo_world : DemoWorld :=
  {| w_client := 0;
     w_call := {| lang := {| short_code := lit "en-US";
                             voice := lit "en-US-AvaNeural" |};
                  phone_number := lit "+33612345678";
                  messages := [] |};
     w_trace := [] |}.

Definition demo_handle_play :=
  handle_play DemoStyle demo_style_value demo_style_value
    DemoPersona DEMO_ASSISTANT demo_persona_eq_dec unit demo_config
    ascii_lower nat demo_play_media.

Definition demo_play_chunk :=
  play_chunk DemoStyle demo_style_value demo_style_value
    DemoPersona unit demo_config nat demo_play_media.

Definition demo_audio_from_text :=
  _audio_from_text DemoStyle demo_style_value DemoPersona unit demo_config
    nat.

Definition demo_synthesis :=
  synthesis DemoStyle demo_style_value DemoPersona demo_config.

Definition demo_handle_recognize_ivr :=
  handle_recognize_ivr DemoStyle demo_style_value DEMO_NONE DemoPersona
    unit demo_config nat demo_start_recognizing_media.

Definition demo_handle_recognize_media :=
  _handle_recognize_media DemoStyle DemoPersona unit ascii_lower nat
    demo_start_recognizing_media.

(** A text of three chunks: the empty one, 400 [a] with their [!], and
    [b]. *)
Definition long_text : str := repeat 97%N 400 ++ lit "!b".


(** C3 at 500 [a]. *)
Lemma pack_single_500_witness :
  tts_sentence_split (repeat 97%N 500) true = [repeat 97%N 500]
  /\ length (repeat 97%N 500) = 500
  /\ pack (repeat 97%N 500) = [[]; repeat 97%N 500]
  /\ length (pack (repeat 97%N 500)) = 2.
Proof.
  assert (Hs : tts_sentence_split (repeat 97%N 500) true
               = [repeat 97%N 500]) by (vm_compute; reflexivity).
  assert (Hl : length (repeat 97%N 500) = 500) by apply repeat_length.
  split; [exact Hs | split; [exact Hl|]].
  exact (pack_single_500 (repeat 97%N 500) (repeat 97%N 500) Hs Hl).
Defined.

(** C4 on [long_text]: the request for the empty chunk succeeds, the one
    for the second chunk is answered "Call Already Terminated.", and
    [handle_play] returns after two requests, with none for [b]. *)
Lemma handle_play_hangup_witness :
  pack long_text = [[]] ++ (repeat 97%N 400 ++ lit "!") :: [lit "b"]
  /\ benign ascii_lower demo_error = true
  /\ snd (demo_handle_play long_text DEMO_CHEERFUL None true demo_world)
     = Returned tt
  /\ played unit
       (w_trace _ _ _ _
          (fst (demo_handle_play long_text DEMO_CHEERFUL None true
                  demo_world)))
     = [(None, demo_synthesis DEMO_CHEERFUL (w_call _ _ _ _ demo_world) []);
        (None, demo_synthesis DEMO_CHEERFUL (w_call _ _ _ _ demo_world)
                 (repeat 97%N 400 ++ lit "!"))].
Proof.
  assert (Hp : pack long_text
               = [[]] ++ (repeat 97%N 400 ++ lit "!") :: [lit "b"])
    by (vm_compute; reflexivity).
  assert (Hb : benign ascii_lower demo_error = true)
    by (vm_compute; reflexivity).
  split; [exact Hp | split; [exact Hb|]].
  destruct
    (handle_play_hangup DemoStyle demo_style_value demo_style_value
       DemoPersona DEMO_ASSISTANT demo_persona_eq_dec unit demo_config
       ascii_lower nat demo_play_media
       long_text DEMO_CHEERFUL None true demo_world
       (fst (for_each _ _ _ _ [[]]
               (demo_play_chunk long_text DEMO_CHEERFUL None)
               (fst (store_text DemoStyle DemoPersona DEMO_ASSISTANT
                       demo_persona_eq_dec unit nat long_text
                       DEMO_CHEERFUL demo_world))))
       [[]] [lit "b"] (repeat 97%N 400 ++ lit "!") demo_error Hp)
    as [Hrun Hplayed].
  - vm_compute. reflexivity.
  - vm_compute. reflexivity.
  - split.
    + unfold demo_handle_play. rewrite Hrun, Hb. reflexivity.
    + unfold demo_handle_play. rewrite Hplayed. reflexivity.
Defined.

(** C5 at a text of 401 characters, which is cut, and at a short one,
    which is not. *)
Lemma audio_from_text_truncation_witness :
  (demo_audio_from_text (repeat 97%N 401) DEMO_NONE
     (w_call _ _ _ _ demo_world) demo_world
   = (with_event _ _ _ _ demo_world (Log unit WARNING TOO_LONG),
      Returned
        (SsmlSource
           (ssml_head DemoStyle demo_style_value DemoPersona demo_config
              DEMO_NONE (w_call _ _ _ _ demo_world)
            ++ repeat 97%N 400 ++ ssml_tail)))
   /\ length (firstn 400 (repeat 97%N 401)) = 400)
  /\ demo_audio_from_text (lit "Hi <there> & you") DEMO_NONE
       (w_call _ _ _ _ demo_world) demo_world
     = (demo_world,
        Returned
          (SsmlSource
             (ssml_head DemoStyle demo_style_value DemoPersona demo_config
                DEMO_NONE (w_call _ _ _ _ demo_world)
              ++ lit "Hi <there> & you" ++ ssml_tail))).
Proof.
  split.
  - apply (audio_from_text_truncation DemoStyle demo_style_value
             DemoPersona unit demo_config nat (repeat 97%N 401)).
    rewrite repeat_length. lia.
  - apply (audio_from_text_truncation DemoStyle demo_style_value
             DemoPersona unit demo_config nat (lit "Hi <there> & you")).
    simpl. lia.
Defined.

(** C9 at 400 [a]: the first request is for the empty chunk. *)
Lemma handle_play_empty_first_chunk_witness :
  exists more rest,
    pack (repeat 97%N 400) = [] :: more
    /\ w_trace _ _ _ _
         (fst (demo_handle_play (repeat 97%N 400) DEMO_NONE None false
                 demo_world))
       = w_trace _ _ _ _ demo_world
         ++ Log unit INFO
              (lit "Playing text: " ++ repeat 97%N 400 ++ lit " ("
               ++ demo_style_value DEMO_NONE ++ lit ")")
         :: PlayMedia unit None
              (SsmlSource
                 (ssml_head DemoStyle demo_style_value DemoPersona
                    demo_config DEMO_NONE (w_call _ _ _ _ demo_world)
                  ++ [] ++ ssml_tail))
         :: rest.
Proof.
  apply (handle_play_empty_first_chunk DemoStyle demo_style_value
           demo_style_value DemoPersona DEMO_ASSISTANT demo_persona_eq_dec
           unit demo_config ascii_lower nat demo_play_media
           (repeat 97%N 400) DEMO_NONE None false demo_world
           (repeat 97%N 400) []).
  - vm_compute. reflexivity.
  - rewrite repeat_length. lia.
Defined.

(** C10 at "!?;.". *)
Lemma handle_play_only_terminators_witness :
  tts_sentence_split (lit "!?;.") true = []
  /\ pack (lit "!?;.") = []
  /\ snd (demo_handle_play (lit "!?;.") DEMO_NONE None true demo_world)
     = Returned tt
  /\ w_trace _ _ _ _
       (fst (demo_handle_play (lit "!?;.") DEMO_NONE None true demo_world))
     = w_trace _ _ _ _ demo_world
  /\ w_client _ _ _ _
       (fst (demo_handle_play (lit "!?;.") DEMO_NONE None true demo_world))
     = w_client _ _ _ _ demo_world.
Proof.
  apply (handle_play_only_terminators DemoStyle demo_style_value
           demo_style_value DemoPersona DEMO_ASSISTANT demo_persona_eq_dec
           unit demo_config ascii_lower nat demo_play_media
           (lit "!?;.") DEMO_NONE None true demo_world).
  - discriminate.
  - reflexivity.
Defined.

(** The same answer, "Call Already Terminated.", makes
    [handle_recognize_ivr] raise and [_handle_recognize_media] return. *)
Example recognize_terminated_run :
  snd (demo_handle_recognize_ivr (lit "Press 1") [tt] demo_world)
  = Raised demo_error
  /\ snd (demo_handle_recognize_media (lit "https://example.org/ready.wav")
            demo_world)
     = Returned tt.
Proof. split; vm_compute; reflexivity. Qed.

(** * Further runs *)

(** A client that answers every request with success. *)
Definition quiet_play_media (n : nat) (_ : option str) (_ : PlaySource)
    : nat * option exn :=
  (S n, None).

Definition quiet_handle_play :=
  handle_play DemoStyle demo_style_value demo_style_value
    DemoPersona DEMO_ASSISTANT demo_persona_eq_dec unit demo_config
    ascii_lower nat quiet_play_media.

Definition demo_handle_recognize_text :=
  handle_recognize_text DemoStyle demo_style_value demo_style_value
    DemoPersona DEMO_ASSISTANT demo_persona_eq_dec unit demo_config
    ascii_lower nat demo_play_media demo_start_recognizing_media.

(** X2 at "Hello world". *)
Lemma tts_sentence_split_no_punctuation_witness :
  tts_sentence_split (lit "Hello world") true = [lit "Hello world"]
  /\ tts_sentence_split (lit "Hello world") false = [].
Proof.
  apply (tts_sentence_split_no_punctuation (lit "Hello world")).
  repeat constructor; discriminate.
Defined.

(** X5 at "Hello. World!". *)
Lemma tts_sentence_split_round_trip_witness :
  concat (tts_sentence_split (lit "Hello. World!") true)
  = lit "Hello. World!".
Proof.
  apply (tts_sentence_split_round_trip (lit "Hello. World!")). reflexivity.
Defined.

(** X6 at "Hi" and the delimiter [!]. *)
Lemma tts_sentence_split_ends_with_delimiter_witness :
  tts_sentence_split (lit "Hi" ++ lit "!") true
  = tts_sentence_split (lit "Hi" ++ lit "!") false.
Proof.
  apply (tts_sentence_split_ends_with_delimiter (lit "Hi") (lit "!")).
  reflexivity.
Defined.

(** X8 at "Hello. World!". *)
Lemma pack_short_text_witness :
  pack (lit "Hello. World!") = [lit "Hello. World!"].
Proof.
  apply (pack_short_text (lit "Hello. World!")). simpl. lia.
Defined.

(** X9 at "Hello. World!". *)
Lemma pack_chunks_bounded_witness :
  Forall (fun c => length c <= 400) (pack (lit "Hello. World!")).
Proof.
  apply (pack_chunks_bounded (lit "Hello. World!")).
  repeat constructor; simpl; lia.
Defined.

(** X11 on [long_text]: three chunks, three requests. *)
Lemma handle_play_all_chunks_witness :
  snd (quiet_handle_play long_text DEMO_NONE None true demo_world)
  = Returned tt
  /\ played unit
       (w_trace _ _ _ _
          (fst (quiet_handle_play long_text DEMO_NONE None true demo_world)))
     = played unit (w_trace _ _ _ _ demo_world)
       ++ map (fun c =>
                 (None, demo_synthesis DEMO_NONE (w_call _ _ _ _ demo_world) c))
            (pack long_text).
Proof.
  apply (handle_play_all_chunks DemoStyle demo_style_value demo_style_value
           DemoPersona DEMO_ASSISTANT demo_persona_eq_dec unit demo_config
           ascii_lower nat quiet_play_media long_text DEMO_NONE None true
           demo_world).
  intros st ctx src. reflexivity.
Defined.

(** X16 without a text. *)
Lemma handle_recognize_text_no_text_witness :
  played unit
    (w_trace _ _ _ _
       (fst (demo_handle_recognize_text DEMO_NONE None true demo_world)))
  = played unit (w_trace _ _ _ _ demo_world)
  /\ recognized unit
       (w_trace _ _ _ _
          (fst (demo_handle_recognize_text DEMO_NONE None true demo_world)))
     = recognized unit (w_trace _ _ _ _ demo_world)
       ++ [media_args DemoStyle DemoPersona unit (sounds_ready demo_config)
             (w_call _ _ _ _ demo_world)]
  /\ w_call _ _ _ _
       (fst (demo_handle_recognize_text DEMO_NONE None true demo_world))
     = w_call _ _ _ _ demo_world.
Proof.
  apply (handle_recognize_text_no_text DemoStyle demo_style_value
           demo_style_value DemoPersona DEMO_ASSISTANT demo_persona_eq_dec
           unit demo_config ascii_lower nat demo_play_media
           demo_start_recognizing_media DEMO_NONE None true demo_world).
  left. reflexivity.
Defined.

(** X19 at "Hello. World!". *)
Lemma handle_play_no_warning_witness :
  warnings unit
    (w_trace _ _ _ _
       (fst (demo_handle_play (lit "Hello. World!") DEMO_NONE None true
               demo_world)))
  = warnings unit (w_trace _ _ _ _ demo_world).
Proof.
  apply (handle_play_no_warning DemoStyle demo_style_value demo_style_value
           DemoPersona DEMO_ASSISTANT demo_persona_eq_dec unit demo_config
           ascii_lower nat demo_play_media (lit "Hello. World!") DEMO_NONE
           None true demo_world).
  repeat constructor; simpl; lia.
Defined.

(** On [long_text] the second request is answered "Call Already
    Terminated.": [handle_recognize_text] stores the text, sends the two
    requests, and starts the recognition all the same. *)
Example recognize_text_after_hangup_run :
  snd (demo_handle_recognize_text DEMO_NONE (Some long_text) true demo_world)
  = Returned tt
  /\ length
       (played unit
          (w_trace _ _ _ _
             (fst (demo_handle_recognize_text DEMO_NONE (Some long_text)
                     true demo_world)))) = 2
  /\ length
       (recognized unit
          (w_trace _ _ _ _
             (fst (demo_handle_recognize_text DEMO_NONE (Some long_text)
                     true demo_world)))) = 1
  /\ map (content DemoStyle DemoPersona)
       (messages _ _
          (w_call _ _ _ _
             (fst (demo_handle_recognize_text DEMO_NONE (Some long_text)
                     true demo_world))))
     = [long_text].
Proof. repeat split; vm_compute; reflexivity. Qed.

(** X22 at 400 [a] followed by [b], and by [c]. *)
Lemma audio_from_text_first_400_witness :
  snd (demo_audio_from_text (repeat 97%N 400 ++ lit "b") DEMO_NONE
         (w_call _ _ _ _ demo_world) demo_world)
  = snd (demo_audio_from_text (repeat 97%N 400 ++ lit "c") DEMO_NONE
           (w_call _ _ _ _ demo_world) demo_world).
Proof.
  apply (audio_from_text_first_400 DemoStyle demo_style_value DemoPersona
           unit demo_config nat (repeat 97%N 400 ++ lit "b")
           (repeat 97%N 400 ++ lit "c")).
  rewrite !firstn_app, !repeat_length, !firstn_all2
    by (rewrite repeat_length; lia).
  reflexivity.
Defined.
